(** * Ford-Fulkerson sample program: a shallow embedding of
      [src/ford_fulkerson.py] and the properties of its path search and of
      its flow-update phase.

    The embedding follows the Python text.
    - Node labels are strings and edge attributes are integers ([Z]).
    - Dictionaries keep insertion order, as the interpreter's do; this
      fixes the order of the edge view and of the dictionary [visit].
    - [random.choice] takes its draws from an explicit list, one per call;
      a run is a function of that list, and a search that asks for more
      draws than the list holds is still running.
    - The attribute dictionaries that the edge view shares with every list
      holding an edge are the cells of one store, addressed by their
      position in the view.
    - Drawing and file handling ([Graph.display], the image files of
      [main]) and the console output change nothing the properties talk
      about and are left out; the total [flow_network] prints is its
      result here.  The interpreter's limit on the depth of recursion is
      not modelled. *)

From Stdlib Require Import ZArith List String Ascii Bool Lia Permutation.
Import ListNotations.

Local Open Scope string_scope.
Local Open Scope list_scope.
Local Open Scope Z_scope.

(* ================================================================== *)
(** ** Python helpers *)

Module Py.

(** [needle in hay] on two [str] values: substring test. *)
Fixpoint str_in (needle hay : string) : bool :=
  if String.prefix needle hay then true
  else match hay with
       | EmptyString => false
       | String _ hay' => str_in needle hay'
       end.

(** [x in xs] on a list of [str]. *)
Definition in_strs (x : string) (xs : list string) : bool :=
  existsb (String.eqb x) xs.

(** [x in xs] on a list of [int]. *)
Definition in_ints (x : Z) (xs : list Z) : bool :=
  existsb (Z.eqb x) xs.

(** [sum(xs)]. *)
Definition sum (xs : list Z) : Z := fold_right Z.add 0 xs.

(** The characters of a [str], each a one-character [str] when indexed. *)
Definition chr (c : ascii) : string := String c EmptyString.

(** [d[k] = v] on an insertion-ordered dictionary: an existing key keeps
    its place and takes the new value, a new key goes last. *)
Fixpoint dict_set {V : Type} (d : list (string * V)) (k : string) (v : V)
  : list (string * V) :=
  match d with
  | [] => [(k, v)]
  | (k', v') :: d' =>
      if String.eqb k' k then (k', v) :: d' else (k', v') :: dict_set d' k v
  end.

(** The first element satisfying [p] together with its position, counted
    from [i]: element [0] of the list a comprehension with condition [p]
    builds, when that list is not empty. *)
Fixpoint first_from {A : Type} (p : A -> bool) (xs : list A) (i : nat)
  : option (nat * A) :=
  match xs with
  | [] => None
  | x :: xs' => if p x then Some (i, x) else first_from p xs' (S i)
  end.

(** In-place change of the element at position [i]; out of range nothing
    changes (the program never writes out of range). *)
Fixpoint alter_at {A : Type} (f : A -> A) (i : nat) (xs : list A) : list A :=
  match xs, i with
  | [], _ => []
  | x :: xs', O => f x :: xs'
  | x :: xs', S i' => x :: alter_at f i' xs'
  end.

End Py.

(* ================================================================== *)
(** ** The directed graph ([networkx.DiGraph], as far as the program uses it) *)

(** The attribute dictionary of an edge: the program always creates it with
    the three keys ['capacity'], ['flow'] and ['residual']. *)
Record Attr : Type := mkAttr { a_capacity : Z; a_flow : Z; a_residual : Z }.

Module Nx.

(** Adjacency: node -> (successor -> attributes), both insertion ordered. *)
Definition DiGraph : Type := list (string * list (string * Attr)).

Definition empty : DiGraph := [].

Definition has_node (g : DiGraph) (n : string) : bool :=
  existsb (fun kv => String.eqb (fst kv) n) g.

Definition add_node (g : DiGraph) (n : string) : DiGraph :=
  if has_node g n then g else g ++ [(n, [])].

Fixpoint set_succ (g : DiGraph) (u v : string) (a : Attr) : DiGraph :=
  match g with
  | [] => []
  | (n, nbrs) :: g' =>
      if String.eqb n u then (n, Py.dict_set nbrs v a) :: g'
      else (n, nbrs) :: set_succ g' u v a
  end.

(** [add_edge]: both end points become nodes, then the attributes are
    stored under [u][v]. *)
Definition add_edge (g : DiGraph) (e : string * string * Attr) : DiGraph :=
  let '(u, v, a) := e in
  set_succ (add_node (add_node g u) v) u v a.

Definition add_edges_from (g : DiGraph) (es : list (string * string * Attr))
  : DiGraph :=
  fold_left add_edge es g.

End Nx.

(** One entry of the edge view [edges(data=True)]: the two end points and
    the attribute dictionary. *)
Record Edge : Type := mkEdge {
  eu : string;
  ev : string;
  capacity : Z;
  flow : Z;
  residual : Z
}.

(** The edge view iterates node by node, and for each node over its
    successors. *)
Definition edges_data (g : Nx.DiGraph) : list Edge :=
  flat_map (fun '(u, nbrs) =>
              map (fun '(v, a) =>
                     mkEdge u v (a_capacity a) (a_flow a) (a_residual a))
                  nbrs) g.

(* ================================================================== *)
(** ** class Graph *)

Module Graph.

Record t : Type := mk {
  graph : Nx.DiGraph;
  source : string;
  sink : string
}.

(** [Graph()]: the defaults of [__init__] ([pos] and [val] only serve the
    drawing and are left out). *)
Definition init : t := mk Nx.empty "S" "T".

Definition sample_edges : list (string * string * Attr) :=
  [ ("S", "A", mkAttr 9 0 9);
    ("S", "B", mkAttr 9 0 9);
    ("A", "B", mkAttr 10 0 10);
    ("A", "C", mkAttr 8 0 8);
    ("B", "C", mkAttr 1 0 1);
    ("B", "D", mkAttr 3 0 3);
    ("C", "T", mkAttr 10 0 10);
    ("D", "C", mkAttr 8 0 8);
    ("D", "T", mkAttr 7 0 7) ].

Definition add_sample_nodes_edges (self : t) : t :=
  mk (Nx.add_edges_from (graph self) sample_edges) (source self) (sink self).

(** The colour of an edge label in [display]:
    ['green' if edge['flow'] < edge['capacity'] else 'red']. *)
Inductive colour : Type := green | red.

Definition label_colour (e : Edge) : colour :=
  if flow e <? capacity e then green else red.

(** The file-name loop of [display]:
    [i = 0; while os.path.exists("sample_%d.png" % i): i += 1].
    [taken i] says that the file of index [i] exists; [fuel] bounds the
    number of tests, and [None] is a loop still running when it is used
    up. *)
Fixpoint free_index (taken : nat -> bool) (fuel i : nat) : option nat :=
  match fuel with
  | O => None
  | S fuel' => if taken i then free_index taken fuel' (S i) else Some i
  end.

End Graph.

(* ================================================================== *)
(** ** class FordFulkerson *)

Module FordFulkerson.

(** The object.  [edges] is the edge view of the graph: the order of its
    entries never changes after construction, and every attribute
    dictionary reached through it is the graph's own, so the view doubles as
    the store of those dictionaries. *)
Record t : Type := mk {
  edges : list Edge;
  source : string;
  sink : string;
  visited : list string;
  path : string;
  retry : Z
}.

Definition init (g : Graph.t) : t :=
  mk (edges_data (Graph.graph g)) (Graph.source g) (Graph.sink g) [] "" 30.

Definition set_path (self : t) (p : string) : t :=
  mk (edges self) (source self) (sink self) (visited self) p (retry self).

Definition set_visited (self : t) (v : list string) : t :=
  mk (edges self) (source self) (sink self) v (path self) (retry self).

(** *** path_finder *)

(** How a call of [path_finder] ends: it returns, it leaves the program
    through [exit()], or the supply of random draws handed to the model is
    used up while the loop asks for one more ([Starved]: the call is still
    running). *)
Inductive search : Type :=
  | Returned (self : t)
  | Exited
  | Starved (self : t).

(** [[edge for edge in self.edges if source in edge[0]]] *)
Definition possible (self : t) (source : string) : list Edge :=
  filter (fun e => Py.str_in source (eu e)) (edges self).

(** [choice(seq)] on a non-empty sequence: any element may come out; the
    draw [c] selects it. *)
Definition choice {A : Type} (c : nat) (seq : list A) (d : A) : A :=
  nth (Nat.modulo c (List.length seq)) seq d.

(** The [while] loop of [path_finder], with the recursive call in its body.
    Every iteration that does not leave the loop takes one draw. *)
Fixpoint while_loop (draws : list nat) (self : t) (source sink : string)
  : search :=
  if (0 <? retry self) && negb (String.eqb source sink)
     && negb (Nat.eqb (List.length (visited self)) 7)
  then
    match possible self source with
    | [] => Returned self          (* choice([]): IndexError, break *)
    | (e0 :: _) as seq =>
        match draws with
        | [] => Starved self
        | c :: draws' =>
            let test := choice c seq e0 in
            let source := ev test in
            if String.eqb source sink then
              let self := set_path self (path self ++ source)%string in
              let self :=
                if Py.in_strs (path self) (visited self) then self
                else set_visited self (visited self ++ [path self]) in
              let self := set_path self "" in
              (* self.path_finder(self.source, self.sink) *)
              let inner :=
                if (String.eqb (FordFulkerson.source self) "")
                   || (String.eqb (FordFulkerson.sink self) "")
                then Exited
                else while_loop draws'
                       (set_path self
                          (path self ++ FordFulkerson.source self)%string)
                       (FordFulkerson.source self) (FordFulkerson.sink self) in
              match inner with
              | Returned self =>
                  (* self.path += source; the loop test then fails, since
                     source == sink here *)
                  Returned (set_path self (path self ++ source)%string)
              | other => other
              end
            else
              while_loop draws' (set_path self (path self ++ source)%string)
                         source sink
        end
    end
  else Returned self.

Definition path_finder (draws : list nat) (self : t) (source sink : string)
  : search :=
  if (String.eqb source "") || (String.eqb sink "") then Exited
  else while_loop draws (set_path self (path self ++ source)%string)
                  source sink.

(** *** flow_network *)

(** The exceptions the method can raise; nothing catches them. *)
Inductive error : Type := IndexError | UnboundLocalError.

(** The local state of one call: the store of attribute dictionaries, the
    list [maxflow], and the variable [_], unbound until its first
    assignment.  [history] is not in the program: it records the store
    after every single assignment to an attribute, oldest first, so that
    properties of every intermediate state can be stated. *)
Record locals : Type := mkLocals {
  cells : list Edge;
  maxflow : list Z;
  underscore : option (string * string);
  history : list (list Edge)
}.

(** The characters of [path], as one-character strings. *)
Fixpoint chars (s : string) : list string :=
  match s with
  | EmptyString => []
  | String c s' => Py.chr c :: chars s'
  end.

(** The first loop over one path: pairs [(path[i], path[i+1])] up to the
    first position that holds the last character of the path. *)
Fixpoint hops_until (last : string) (cs : list string)
  : list (string * string) :=
  match cs with
  | [] => []
  | c :: cs' =>
      if String.eqb c last then []          (* break *)
      else match cs' with
           | [] => []    (* not reached: the last position holds [last] *)
           | d :: _ => (c, d) :: hops_until last cs'
           end
  end.

Definition hops (path : string) : list (string * string) :=
  hops_until (List.last (chars path) "") (chars path).

(** The dictionary [visit]. *)
Definition build_visit (visited : list string)
  : list (string * list (string * string)) :=
  fold_left (fun visit path => Py.dict_set visit path (hops path)) visited [].

(** [node[0] in edge and node[1] in edge], [edge] being the triple
    [(u, v, attributes)]: a label never equals the dictionary. *)
Definition both_in (node : string * string) (e : Edge) : bool :=
  (String.eqb (fst node) (eu e) || String.eqb (fst node) (ev e))
  && (String.eqb (snd node) (eu e) || String.eqb (snd node) (ev e)).

(** The loop [for node in visit[path]]: it collects in [r_edges] the
    position of [temp[0]] for every pair and computes
    [residual_capacity]. *)
Fixpoint scan (es : list Edge) (nodes : list (string * string))
    (residual_capacity : Z) (r_edges : list nat)
    (und : option (string * string))
  : option (Z * list nat * option (string * string)) :=
  match nodes with
  | [] => Some (residual_capacity, r_edges, und)
  | node :: nodes' =>
      match Py.first_from (both_in node) es 0 with
      | None => None                      (* temp[0] on []: IndexError *)
      | Some (i, temp0) =>
          let r_edges := r_edges ++ [i] in
          if residual_capacity =? 0 then
            scan es nodes' (capacity temp0) r_edges und
          else if residual_capacity >? capacity temp0 then
            scan es nodes' (capacity temp0) r_edges
                 (Some (eu temp0, ev temp0))
          else scan es nodes' residual_capacity r_edges und
      end
  end.

Definition add_flow (d : Z) (e : Edge) : Edge :=
  mkEdge (eu e) (ev e) (capacity e) (flow e + d) (residual e).

Definition sub_residual (d : Z) (e : Edge) : Edge :=
  mkEdge (eu e) (ev e) (capacity e) (flow e) (residual e - d).

(** One assignment to an attribute of the dictionary at position [i]. *)
Definition write (st : locals) (i : nat) (f : Edge -> Edge) : locals :=
  let cells' := Py.alter_at f i (cells st) in
  mkLocals cells' (maxflow st) (underscore st) (history st ++ [cells']).

(** The loop [for edge in r_edges]. *)
Fixpoint update (st : locals) (residual_capacity : Z) (r_edges : list nat)
  : locals :=
  match r_edges with
  | [] => st
  | i :: r_edges' =>
      match nth_error (cells st) i with
      | None => st            (* not reached: [i] is a position of the view *)
      | Some e =>
          if negb (flow e =? capacity e) then
            if flow e + residual_capacity >? capacity e then st   (* break *)
            else
              let st := write st i (add_flow residual_capacity) in
              let st := write st i (sub_residual residual_capacity) in
              update st residual_capacity r_edges'
          else st                                                 (* break *)
      end
  end.

(** The body of [for path in visit], given [visit[path]]: [inl] when it
    raises, otherwise the state the next iteration starts from.  The
    drawing [self.graph.display()] that closes the body (line 212) is
    not part of the model: it changes no variable of the loop, and an
    [inr] result is the state the next iteration starts from when the
    drawing returns. *)
Definition body (st : locals) (nodes : list (string * string))
  : error + locals :=
  match scan (cells st) nodes 0 [] (underscore st) with
  | None => inl IndexError
  | Some (residual_capacity, r_edges, und) =>
      let st := mkLocals (cells st) (maxflow st) und (history st) in
      if negb (Py.in_ints residual_capacity (maxflow st)) then
        let st := mkLocals (cells st) (maxflow st ++ [residual_capacity])
                           (underscore st) (history st) in
        inr (update st residual_capacity r_edges)
      else
        match underscore st with
        | None => inl UnboundLocalError     (* print(..., _, ...) *)
        | Some _ => inr st                  (* continue *)
        end
  end.

(** The loop [for path in visit]: the state it stops in, and the exception
    if one was raised. *)
Fixpoint for_paths (st : locals)
    (visit : list (string * list (string * string)))
  : locals * option error :=
  match visit with
  | [] => (st, None)
  | (_, nodes) :: visit' =>
      match body st nodes with
      | inl err => (st, Some err)
      | inr st' => for_paths st' visit'
      end
  end.

(** How [flow_network] ends: it prints [sum(maxflow)], or it raises. *)
Inductive ending : Type :=
  | Printed (total : Z)
  | Raised (err : error).

Definition flow_network (self : t) : locals * ending :=
  let st0 := mkLocals (edges self) [] None [] in
  let '(st, err) := for_paths st0 (build_visit (visited self)) in
  (st, match err with
       | None => Printed (Py.sum (maxflow st))
       | Some e => Raised e
       end).

(** [__str__]: the characters of [self.visited[len(self.visited)-1]]
    joined by [" -> "].  With nothing recorded the index is [-1] on an
    empty list, an [IndexError]. *)
Definition to_str (self : t) : error + string :=
  match visited self with
  | [] => inl IndexError
  | _ :: _ =>
      inr (String.concat " -> " (chars (List.last (visited self) "")))
  end.

End FordFulkerson.

(* ================================================================== *)
(** ** main *)

(** A run of the program on the draws [draws]: both phases were carried
    out, the program left through [exit()], or the path search is still
    running when the draws are used up. *)
Inductive run : Type :=
  | Completed (ford : FordFulkerson.t) (st : FordFulkerson.locals)
              (e : FordFulkerson.ending)
  | SystemExit
  | Searching (self : FordFulkerson.t).

(** The two phases on a [FordFulkerson] object, as [main] calls them. *)
Definition compute (draws : list nat) (ford : FordFulkerson.t) : run :=
  match FordFulkerson.path_finder draws ford (FordFulkerson.source ford)
                                  (FordFulkerson.sink ford) with
  | FordFulkerson.Returned ford' =>
      let '(st, e) := FordFulkerson.flow_network ford' in Completed ford' st e
  | FordFulkerson.Exited => SystemExit
  | FordFulkerson.Starved ford' => Searching ford'
  end.

Definition sample : FordFulkerson.t :=
  FordFulkerson.init (Graph.add_sample_nodes_edges Graph.init).

Definition main (draws : list nat) : run := compute draws sample.

(* ================================================================== *)
(** ** Vocabulary of the properties

    States, predicates and sample inputs the statements below are written
    with. *)

Module Props.
Import FordFulkerson.

(** The object a search has reached, when there is one. *)
Definition reached (r : search) : option t :=
  match r with
  | Returned self => Some self
  | Starved self => Some self
  | Exited => None
  end.

(** The list [visited] stays free of repetitions and never grows beyond
    seven entries. *)
Definition tidy (v : list string) : Prop :=
  NoDup v /\ (List.length v <= 7)%nat.

(** The seven walks from S to T in the sample graph. *)
Definition all_paths : list string :=
  ["SABCT"; "SABDCT"; "SABDT"; "SACT"; "SBCT"; "SBDCT"; "SBDT"].

(** The values [(self.path, source)] can take at the head of the loop. *)
Definition partial : list (string * string) :=
  [("S", "S"); ("SA", "A"); ("SB", "B"); ("SAB", "B"); ("SAC", "C");
   ("SABC", "C"); ("SABD", "D"); ("SABDC", "C"); ("SBC", "C"); ("SBD", "D");
   ("SBDC", "C")].

(** Equality test on pairs of strings. *)
Definition pair_eqb (a b : string * string) : bool :=
  String.eqb (fst a) (fst b) && String.eqb (snd a) (snd b).

(** One iteration from [(p, s)]: the node is not the sink, it has an
    outgoing edge, and every edge leads to a listed value or completes a
    listed walk. *)
Definition step_ok (ps : string * string) : bool :=
  negb (String.eqb (snd ps) "T")
  && negb (Nat.eqb (List.length (possible sample (snd ps))) 0)
  && forallb
       (fun e =>
          if String.eqb (ev e) "T"
          then Py.in_strs (fst ps ++ ev e)%string all_paths
          else existsb (pair_eqb ((fst ps ++ ev e)%string, ev e)) partial)
       (possible sample (snd ps)).

(** The fields of the object the search never changes, as the sample
    object has them. *)
Definition on_sample (self : t) : Prop :=
  edges self = edges sample /\ source self = "S" /\ sink self = "T"
  /\ retry self = 30.

(** The sample object during the search, with [v] recorded and the path
    string [p]. *)
Definition at_ (v : list string) (p : string) : t :=
  mk (edges sample) "S" "T" v p 30.

(** [if p not in visited: visited.append(p)] *)
Definition record (v : list string) (p : string) : list string :=
  if Py.in_strs p v then v else v ++ [p].

(** What the caller does with the outcome of the recursive call: when the
    call returns, it appends the node it stands on to the path and
    returns. *)
Definition back (nxt : string) (r : search) : search :=
  match r with
  | Returned s => Returned (set_path s (path s ++ nxt)%string)
  | other => other
  end.

(** End points and capacity of an edge. *)
Definition shape (e : Edge) : string * string * Z :=
  (eu e, ev e, capacity e).

(** The same for every edge of the view, in order. *)
Definition shapes (es : list Edge) : list (string * string * Z) :=
  map shape es.

(** The value [residual_capacity] has when the scan of a path ends, if the
    scan does not raise. *)
Definition amount (es : list Edge) (nodes : list (string * string))
  : option Z :=
  match scan es nodes 0 [] None with
  | Some (rc, _, _) => Some rc
  | None => None
  end.

(** The same for an entry of [visit]; 0 stands for a scan that raises. *)
Definition amt (es : list Edge) (kv : string * list (string * string)) : Z :=
  match amount es (snd kv) with
  | Some rc => rc
  | None => 0
  end.

(** [if rc not in maxflow: maxflow.append(rc)] *)
Definition note (m : list Z) (rc : Z) : list Z :=
  if Py.in_ints rc m then m else m ++ [rc].

(** The capacity bound on one edge. *)
Definition bounded (e : Edge) : Prop := 0 <= flow e <= capacity e.

(** From one store to a later one: the same edges in the same places, no
    flow smaller than before. *)
Definition flow_le (a b : list Edge) : Prop :=
  Forall2 (fun e e' => eu e = eu e' /\ ev e = ev e' /\ flow e <= flow e') a b.

(** [h] lists the stores that follow [a], each related to the one before
    it by [R], and [b] is the last of them ([a] itself when [h] is
    empty). *)
Inductive chain {A : Type} (R : A -> A -> Prop) (a : A)
  : list A -> A -> Prop :=
  | chain_nil : chain R a [] a
  | chain_snoc (h : list A) (b c : A) :
      chain R a h b -> R b c -> chain R a (h ++ [c]) c.

(** No edge has a negative capacity. *)
Definition caps_nonneg (es : list Edge) : Prop :=
  Forall (fun e => 0 <= capacity e) es.

(** A property of the store and of its history, read off a state. *)
Definition holds (Q : list Edge -> list (list Edge) -> Prop) (st : locals)
  : Prop :=
  Q (cells st) (history st).

(** Draws that make the search follow a given walk of the sample graph:
    at S, A, B and D the second edge is taken with draw 1, the first with
    draw 0. *)
Definition draws_for (p : string) : list nat :=
  if String.eqb p "SABCT" then [0; 0; 0; 0]%nat
  else if String.eqb p "SABDCT" then [0; 0; 1; 0; 0]%nat
  else if String.eqb p "SABDT" then [0; 0; 1; 1]%nat
  else if String.eqb p "SACT" then [0; 1; 0]%nat
  else if String.eqb p "SBCT" then [1; 0; 0]%nat
  else if String.eqb p "SBDCT" then [1; 1; 0; 0]%nat
  else [1; 1; 1]%nat.

(** The search finds the seven walks in the order listed. *)
Definition draws_in_order : list nat := flat_map draws_for all_paths.

(** The search finds SACT first, SBDCT second. *)
Definition draws_other_order : list nat :=
  flat_map draws_for
    ["SACT"; "SBDCT"; "SABCT"; "SABDCT"; "SABDT"; "SBCT"; "SBDT"].



(** Total flow into node [v]. *)
Definition inflow (es : list Edge) (v : string) : Z :=
  Py.sum (map flow (filter (fun e => String.eqb (ev e) v) es)).

(** Total flow out of node [v]. *)
Definition outflow (es : list Edge) (v : string) : Z :=
  Py.sum (map flow (filter (fun e => String.eqb (eu e) v) es)).

(** What a run left at node [v], when it carried out both phases and
    printed a total: the total, the inflow and the outflow. *)
Definition balance (r : run) (v : string) : option (Z * Z * Z) :=
  match r with
  | Completed _ st (Printed total) =>
      Some (total, inflow (cells st) v, outflow (cells st) v)
  | _ => None
  end.

(** The state the update phase starts from on the sample graph. *)
Definition fresh : locals := mkLocals (edges sample) [] None [].

(** The state after the path SACT was processed first. *)
Definition after_SACT : locals :=
  fst (for_paths fresh (build_visit ["SACT"])).

(** The effect of one accepted edge: both assignments. *)
Definition pushed (rc : Z) (e : Edge) : Edge :=
  sub_residual rc (add_flow rc e).

(** The update of a path is all-or-nothing between two stores: every
    edge of the path has its flow raised by the amount, or the store is
    unchanged. *)
Definition all_or_nothing (before after : list Edge) (rc : Z)
    (r_edges : list nat) : Prop :=
  (forall i e, In i r_edges -> nth_error before i = Some e ->
               exists e', nth_error after i = Some e'
                          /\ flow e' = flow e + rc)
  \/ after = before.

(** The edge [temp[0]] of every pair of a path, when each pair has one. *)
Fixpoint arcs (es : list Edge) (nodes : list (string * string))
  : option (list Edge) :=
  match nodes with
  | [] => Some []
  | node :: nodes' =>
      match Py.first_from (both_in node) es 0 with
      | None => None
      | Some (_, e) => option_map (cons e) (arcs es nodes')
      end
  end.

(** The smallest element of a list. *)
Fixpoint list_min (xs : list Z) : option Z :=
  match xs with
  | [] => None
  | x :: xs' =>
      match list_min xs' with
      | None => Some x
      | Some m => Some (Z.min x m)
      end
  end.

(** The bottleneck as the specification words it: the minimum over the
    arcs of the path of capacity minus current flow. *)
Definition spec_bottleneck (es : list Edge) (nodes : list (string * string))
  : option Z :=
  match arcs es nodes with
  | Some a => list_min (map (fun e => capacity e - flow e) a)
  | None => None
  end.

(** The nodes S and A joined in both directions and the node T with one
    edge to S, with the default source S and sink T: no edge leads to
    T. *)
Definition two_cycle : t :=
  init (Graph.mk
          (Nx.add_edges_from Nx.empty
             [("S", "A", mkAttr 1 0 1); ("A", "S", mkAttr 1 0 1);
              ("T", "S", mkAttr 1 0 1)])
          "S" "T").

(** Nodes the search can move to from [a]: it follows any edge whose
    start contains the label of the node it stands on. *)
Inductive walk (es : list Edge) : string -> string -> Prop :=
  | walk_here (a : string) : walk es a a
  | walk_step (a b : string) (e : Edge) :
      In e (filter (fun e => Py.str_in a (eu e)) es) ->
      walk es (ev e) b -> walk es a b.

(** The sample object with two recorded paths, SACT then SBDCT. *)
Definition two_paths : t := set_visited sample ["SACT"; "SBDCT"].

End Props.

Import Props.

(* ================================================================== *)
(** ** Vocabulary of the further properties *)

Module MoreProps.
Import FordFulkerson.

(** The strings of a list put end to end. *)
Definition cat (l : list string) : string :=
  fold_right String.append "" l.

(** The labels a walk of the search goes through after it leaves the node
    [c], up to its arrival at [snk]: each move follows an edge whose start
    contains the label of the node left, and the walk ends with the first
    move that leads to [snk]. *)
Inductive steps (es : list Edge) (snk : string)
  : string -> list string -> Prop :=
  | steps_last (c : string) (e : Edge) :
      In e (filter (fun e => Py.str_in c (eu e)) es) -> ev e = snk ->
      steps es snk c [snk]
  | steps_more (c : string) (e : Edge) (l : list string) :
      In e (filter (fun e => Py.str_in c (eu e)) es) -> ev e <> snk ->
      steps es snk (ev e) l ->
      steps es snk c (ev e :: l).

(** The fields of the object that describe the graph and the search
    limits. *)
Definition frame (self : t) : list Edge * string * string * Z :=
  (edges self, source self, sink self, retry self).

(** The attribute ['residual'] of an edge says what its capacity leaves
    free. *)
Definition consistent (e : Edge) : Prop :=
  flow e + residual e = capacity e.

(** No edge joins the two nodes of the pair, in either direction. *)
Definition unjoined (es : list Edge) (node : string * string) : Prop :=
  forall e, In e es -> both_in node e = false.

(** The sum of the capacities of all edges. *)
Definition total_capacity (es : list Edge) : Z :=
  Py.sum (map capacity es).

(** Position [j] of the edge view holds the edge taken for some pair of
    the path. *)
Definition on_path (es : list Edge) (nodes : list (string * string))
    (j : nat) : Prop :=
  exists node x,
    In node nodes /\ Py.first_from (both_in node) es 0 = Some (j, x).

(** A label of one character. *)
Definition one_char (s : string) : Prop := String.length s = 1%nat.

(** Every node the search can stand on or move to has a one-character
    label: the end points of all edges, the source and the sink. *)
Definition one_char_labels (self : t) : Prop :=
  (forall e, In e (edges self) -> one_char (eu e) /\ one_char (ev e))
  /\ one_char (source self) /\ one_char (sink self).

(** A graph in which the walk from S stops at A, a node without outgoing
    edges; the sink T has an edge to S and none leading to it. *)
Definition dead_end : t :=
  init (Graph.mk
          (Nx.add_edges_from Nx.empty
             [("S", "A", mkAttr 4 0 4); ("T", "S", mkAttr 2 0 2)])
          "S" "T").

(** Every fifth character of a string, starting with the first. *)
Fixpoint every5 (s : string) : string :=
  match s with
  | String a (String _ (String _ (String _ (String _ rest)))) =>
      String a (every5 rest)
  | String a _ => String a ""
  | EmptyString => ""
  end.


(** A graph whose four edges all have capacity 5, with its two paths
    recorded. *)
Definition square : t :=
  set_visited
    (init (Graph.mk
             (Nx.add_edges_from Nx.empty
                [("S", "A", mkAttr 5 0 5); ("A", "T", mkAttr 5 0 5);
                 ("S", "B", mkAttr 5 0 5); ("B", "T", mkAttr 5 0 5)])
             "S" "T"))
    ["SAT"; "SBT"].

(** The nodes S and A joined in both directions, the edge from A to S
    first in the view, and an edge from A to T. *)
Definition both_ways : list Edge :=
  [mkEdge "A" "S" 1 0 1; mkEdge "A" "T" 5 0 5; mkEdge "S" "A" 10 0 10].

(** Three edges in a row, the middle one of capacity 0. *)
Definition row_with_zero : list Edge :=
  [mkEdge "S" "A" 5 0 5; mkEdge "A" "B" 0 0 0; mkEdge "B" "T" 7 0 7].

(** The sample graph with S as source and as sink. *)
Definition sample_round : t :=
  init (Graph.mk (Graph.graph (Graph.add_sample_nodes_edges Graph.init))
                 "S" "S").

(** Consecutive edges of the list meet: each one ends at the node the
    next one starts from. *)
Fixpoint chained (a : list Edge) : Prop :=
  match a with
  | e1 :: ((e2 :: _) as a') => ev e1 = eu e2 /\ chained a'
  | _ => True
  end.

(** What stays at the node [v]: the flow into it less the flow out of
    it. *)
Definition net (es : list Edge) (v : string) : Z :=
  inflow es v - outflow es v.

(** The amount [rc] when the two labels are the same, else 0. *)
Definition when_eq (a b : string) (rc : Z) : Z :=
  if String.eqb a b then rc else 0.

End MoreProps.

Import MoreProps.

(* ================================================================== *)
(** ** The path search: what it records *)

Module SearchFacts.
Import FordFulkerson.

(** One unfolding of the loop. *)
Lemma while_loop_unfold (draws : list nat) (self : t) (source sink : string) :
  while_loop draws self source sink =
  if (0 <? retry self) && negb (String.eqb source sink)
     && negb (Nat.eqb (List.length (visited self)) 7)
  then
    match possible self source with
    | [] => Returned self
    | (e0 :: _) as seq =>
        match draws with
        | [] => Starved self
        | c :: draws' =>
            let test := choice c seq e0 in
            let source := ev test in
            if String.eqb source sink then
              let self := set_path self (path self ++ source)%string in
              let self :=
                if Py.in_strs (path self) (visited self) then self
                else set_visited self (visited self ++ [path self]) in
              let self := set_path self "" in
              let inner :=
                if (String.eqb (FordFulkerson.source self) "")
                   || (String.eqb (FordFulkerson.sink self) "")
                then Exited
                else while_loop draws'
                       (set_path self
                          (path self ++ FordFulkerson.source self)%string)
                       (FordFulkerson.source self) (FordFulkerson.sink self) in
              match inner with
              | Returned self =>
                  Returned (set_path self (path self ++ source)%string)
              | other => other
              end
            else
              while_loop draws' (set_path self (path self ++ source)%string)
                         source sink
        end
    end
  else Returned self.
Proof. destruct draws; reflexivity. Qed.

Lemma in_strs_In (x : string) (xs : list string) :
  Py.in_strs x xs = true <-> In x xs.
Proof.
  unfold Py.in_strs. rewrite existsb_exists. split.
  - intros [y [Hy E]]. apply String.eqb_eq in E. now subst.
  - intros H. exists x. split; [assumption | apply String.eqb_refl].
Qed.

Lemma choice_In {A : Type} (c : nat) (x : A) (xs : list A) (d : A) :
  In (choice c (x :: xs) d) (x :: xs).
Proof.
  unfold choice. apply nth_In. apply Nat.mod_upper_bound. discriminate.
Qed.

Lemma tidy_append (v : list string) (p : string) :
  tidy v -> Nat.eqb (List.length v) 7 = false -> Py.in_strs p v = false ->
  tidy (v ++ [p]).
Proof.
  intros [Hn Hl] H7 Hp. apply Nat.eqb_neq in H7. split.
  - apply NoDup_app; [assumption | repeat constructor; intros [] | ].
    intros x Hx [E | []]. subst x.
    apply in_strs_In in Hx. congruence.
  - rewrite length_app. simpl. lia.
Qed.

Lemma while_loop_tidy (draws : list nat) :
  forall (self : t) (source sink : string),
    tidy (visited self) ->
    match reached (while_loop draws self source sink) with
    | Some self' => tidy (visited self')
    | None => True
    end.
Proof.
  induction draws as [| c draws IH]; intros self source sink Ht;
    rewrite while_loop_unfold.
  - destruct (_ && _); [destruct (possible self source) |]; simpl; assumption.
  - destruct ((0 <? retry self) && negb (String.eqb source sink)) eqn:E1;
      simpl; [| assumption].
    destruct (Nat.eqb (List.length (visited self)) 7) eqn:E7;
      simpl; [assumption |].
    destruct (possible self source) as [| e0 seq]; simpl; [assumption |].
    destruct (String.eqb (ev (choice c (e0 :: seq) e0)) sink).
    + cbv zeta.
      match goal with |- context [set_path ?x ""] => set (s1 := x) end.
      assert (H1 : tidy (visited s1)).
      { subst s1. destruct (Py.in_strs _ _) eqn:Ein; simpl; [assumption |].
        apply tidy_append; assumption. }
      clearbody s1. simpl.
      destruct (_ || _); simpl; [exact I |].
      match goal with
      | |- context [while_loop draws ?s ?a ?b] =>
          specialize (IH s a b H1); destruct (while_loop draws s a b)
      end; simpl in *; assumption.
    + apply IH. assumption.
Qed.

(** The search never touches the edge view. *)
Lemma while_loop_edges (draws : list nat) :
  forall (self : t) (source sink : string),
    match reached (while_loop draws self source sink) with
    | Some self' => edges self' = edges self
    | None => True
    end.
Proof.
  induction draws as [| c draws IH]; intros self src snk;
    rewrite while_loop_unfold.
  - destruct (_ && _); [destruct (possible self src) |]; reflexivity.
  - destruct ((0 <? retry self) && negb (String.eqb src snk)
              && negb (Nat.eqb (List.length (visited self)) 7));
      [| reflexivity].
    destruct (possible self src) as [| e0 seq]; [reflexivity |].
    cbv zeta.
    destruct (String.eqb (ev (choice c (e0 :: seq) e0)) snk).
    + match goal with |- context [set_path ?x ""] => set (s1 := x) end.
      assert (H1 : edges s1 = edges self)
        by (subst s1; destruct (Py.in_strs _ _); reflexivity).
      clearbody s1. cbn [set_path source sink path].
      destruct (_ || _); [exact I |].
      match goal with
      | |- context [while_loop draws ?s ?a ?b] =>
          specialize (IH s a b); destruct (while_loop draws s a b)
      end; simpl in *; congruence.
    + match goal with
      | |- context [while_loop draws ?s ?a ?b] => exact (IH s a b)
      end.
Qed.

End SearchFacts.

(* ================================================================== *)
(** ** The path search on the sample graph *)

Module SampleSearch.
Import FordFulkerson SearchFacts.

Lemma partial_closed : forallb step_ok partial = true.
Proof. vm_compute. reflexivity. Qed.

Lemma pair_eqb_In (a : string * string) (l : list (string * string)) :
  existsb (pair_eqb a) l = true -> In a l.
Proof.
  rewrite existsb_exists. intros [[b1 b2] [Hb E]].
  unfold pair_eqb in E. apply andb_true_iff in E. destruct E as [E1 E2].
  apply String.eqb_eq in E1, E2. destruct a. simpl in *. now subst.
Qed.

Lemma sample_search (draws : list nat) :
  forall (self : t) (src : string),
    on_sample self -> NoDup (visited self) -> incl (visited self) all_paths ->
    In (path self, src) partial ->
    forall self',
      while_loop draws self src "T" = Returned self' ->
      List.length (visited self') = 7%nat
      /\ NoDup (visited self') /\ incl (visited self') all_paths
      /\ edges self' = edges sample.
Proof.
  induction draws as [| c draws IH];
    intros self src Hs Hn Hi Hp self'; rewrite while_loop_unfold;
    pose proof (proj1 (forallb_forall _ _) partial_closed _ Hp) as Hok;
    unfold step_ok in Hok; simpl fst in Hok; simpl snd in Hok;
    apply andb_true_iff in Hok; destruct Hok as [Hok Hall];
    apply andb_true_iff in Hok; destruct Hok as [HT Hne];
    destruct Hs as (He & Hsrc & Hsnk & Hr);
    assert (Hposs : possible self src = possible sample src)
      by (unfold possible; now rewrite He);
    rewrite Hr, HT, Hposs; simpl andb.
  - destruct (Nat.eqb (List.length (visited self)) 7) eqn:E7; simpl.
    + intros [= <-]. apply Nat.eqb_eq in E7. auto.
    + destruct (possible sample src); [discriminate | discriminate].
  - destruct (Nat.eqb (List.length (visited self)) 7) eqn:E7; simpl.
    + intros [= <-]. apply Nat.eqb_eq in E7. auto.
    + destruct (possible sample src) as [| e0 seq] eqn:Eposs;
        [discriminate |].
      pose proof (choice_In c e0 seq e0) as Hin.
      pose proof (proj1 (forallb_forall _ _) Hall _ Hin) as Hstep.
      cbv beta in Hstep. cbv zeta.
      destruct (String.eqb (ev (choice c (e0 :: seq) e0)) "T") eqn:ET.
      * match goal with |- context [set_path ?x ""] => set (s1 := x) end.
        assert (H1 : NoDup (visited s1) /\ incl (visited s1) all_paths
                     /\ edges s1 = edges sample /\ source s1 = "S"
                     /\ sink s1 = "T" /\ retry s1 = 30).
        { subst s1. cbn [set_path set_visited path visited].
          destruct (Py.in_strs _ (visited self)) eqn:Ein;
            cbn [set_path set_visited path visited edges source sink retry].
          - repeat split; assumption.
          - repeat split; try assumption.
            + apply NoDup_app; [assumption | repeat constructor; intros [] |].
              intros x Hx [E | []]. subst x.
              apply in_strs_In in Hx. congruence.
            + apply incl_app; [assumption |].
              intros x [<- | []]. apply in_strs_In. exact Hstep. }
        clearbody s1. destruct H1 as (N1 & I1 & E1 & S1 & T1 & R1).
        cbn [set_path source sink path]. rewrite S1, T1. simpl orb. cbv iota.
        intros Hret.
        destruct (while_loop draws _ "S" "T") as [s2 | | s2] eqn:Ew;
          try discriminate.
        injection Hret as <-. cbn [set_path visited edges].
        eapply IH; [| | | | exact Ew];
          cbn [set_path visited edges path]; try assumption.
        -- repeat split; assumption.
        -- left. reflexivity.
      * apply IH; cbn [set_path visited edges path]; try assumption.
        -- repeat split; assumption.
        -- apply pair_eqb_In. exact Hstep.
Qed.

(** A search on the sample graph that returns has recorded each of the
    seven walks exactly once, in some order. *)
Lemma sample_search_returns (draws : list nat) (self' : t) :
  path_finder draws sample "S" "T" = Returned self' ->
  Permutation (visited self') all_paths /\ edges self' = edges sample.
Proof.
  unfold path_finder. simpl. intros H.
  apply sample_search in H.
  - destruct H as (Hl & Hn & Hi & He). split; [| assumption].
    apply NoDup_Permutation_bis; [assumption | | assumption].
    rewrite Hl. simpl. lia.
  - repeat split; reflexivity.
  - constructor.
  - intros x [].
  - left. reflexivity.
Qed.

End SampleSearch.

(* ================================================================== *)
(** ** The update phase: general facts *)

Module FlowFacts.
Import FordFulkerson.

(** *** Lists *)

Lemma alter_at_length {A : Type} (f : A -> A) (i : nat) (xs : list A) :
  List.length (Py.alter_at f i xs) = List.length xs.
Proof.
  revert i. induction xs as [| x xs IH]; intros [| i]; simpl; congruence.
Qed.

Lemma alter_at_same {A : Type} (f : A -> A) (i : nat) (xs : list A) (x : A) :
  nth_error xs i = Some x -> nth_error (Py.alter_at f i xs) i = Some (f x).
Proof.
  revert i. induction xs as [| y xs IH]; intros [| i]; simpl;
    try discriminate.
  - now intros [= ->].
  - apply IH.
Qed.

Lemma alter_at_other {A : Type} (f : A -> A) (i j : nat) (xs : list A) :
  i <> j -> nth_error (Py.alter_at f i xs) j = nth_error xs j.
Proof.
  revert i j. induction xs as [| y xs IH]; intros [| i] [| j] H; simpl;
    try reflexivity; try congruence.
  apply IH. congruence.
Qed.

Lemma alter_at_Forall2 {A : Type} (R : A -> A -> Prop) (f : A -> A)
    (i : nat) (xs : list A) :
  (forall x, R x x) ->
  (forall x, nth_error xs i = Some x -> R x (f x)) ->
  Forall2 R xs (Py.alter_at f i xs).
Proof.
  intros Hrefl. revert i.
  induction xs as [| y xs IH]; intros [| i] H; simpl; constructor;
    try apply Hrefl.
  - apply H. reflexivity.
  - clear IH H. induction xs; constructor; auto.
  - apply IH. exact H.
Qed.

Lemma alter_at_Forall {A : Type} (P : A -> Prop) (f : A -> A)
    (i : nat) (xs : list A) :
  Forall P xs ->
  (forall x, nth_error xs i = Some x -> P (f x)) ->
  Forall P (Py.alter_at f i xs).
Proof.
  intros HP. revert i.
  induction HP as [| y xs Hy HP IH]; intros [| i] H; simpl; constructor;
    auto.
Qed.

Lemma first_from_spec {A : Type} (p : A -> bool) (xs : list A) :
  forall (i j : nat) (x : A),
    Py.first_from p xs i = Some (j, x) ->
    (i <= j)%nat /\ nth_error xs (j - i) = Some x /\ p x = true.
Proof.
  induction xs as [| y xs IH]; intros i j x; simpl; [discriminate |].
  destruct (p y) eqn:Ey.
  - intros [= <- <-]. rewrite Nat.sub_diag. auto.
  - intros H. apply IH in H. destruct H as (Hle & Hn & Hp).
    repeat split; [lia | | assumption].
    replace (j - i)%nat with (S (j - S i)) by lia. exact Hn.
Qed.

Lemma first_from_0 {A : Type} (p : A -> bool) (xs : list A) (j : nat) (x : A) :
  Py.first_from p xs 0 = Some (j, x) -> nth_error xs j = Some x.
Proof.
  intros H. apply first_from_spec in H. now rewrite Nat.sub_0_r in H.
Qed.

(** *** What the update never touches *)

Lemma both_in_shape (node : string * string) (e e' : Edge) :
  shape e = shape e' -> both_in node e = both_in node e'.
Proof. unfold shape, both_in. intros [= -> -> _]. reflexivity. Qed.

Lemma first_from_shapes (node : string * string) (es : list Edge) :
  forall (es' : list Edge) (i : nat),
    shapes es = shapes es' ->
    match Py.first_from (both_in node) es i,
          Py.first_from (both_in node) es' i with
    | Some (j, x), Some (j', x') => j = j' /\ shape x = shape x'
    | None, None => True
    | _, _ => False
    end.
Proof.
  induction es as [| e es IH]; intros [| e' es'] i;
    cbn [shapes map Py.first_from]; try discriminate; [trivial |].
  intros [= Hu Hv Hc Hes].
  assert (He : shape e = shape e') by (unfold shape; congruence).
  rewrite (both_in_shape node e e' He).
  destruct (both_in node e'); [auto |]. apply IH. exact Hes.
Qed.

(** The scan of a path reads end points and capacities only. *)
Lemma scan_shapes (es es' : list Edge) (nodes : list (string * string)) :
  shapes es = shapes es' ->
  forall rc r und, scan es nodes rc r und = scan es' nodes rc r und.
Proof.
  intros Hs. induction nodes as [| node nodes IH]; intros rc r und; simpl;
    [reflexivity |].
  pose proof (first_from_shapes node es es' 0 Hs) as H.
  destruct (Py.first_from (both_in node) es 0) as [[j x] |],
           (Py.first_from (both_in node) es' 0) as [[j' x'] |];
    try contradiction; [| reflexivity].
  destruct H as [<- Hx]. injection Hx as Hu Hv Hc. rewrite Hu, Hv, Hc.
  destruct (rc =? 0); [apply IH |].
  destruct (rc >? capacity x'); apply IH.
Qed.

Lemma alter_at_shapes (f : Edge -> Edge) (i : nat) (es : list Edge) :
  (forall e, shape (f e) = shape e) ->
  shapes (Py.alter_at f i es) = shapes es.
Proof.
  intros Hf. revert i.
  induction es as [| e es IH]; intros [| i]; simpl; try reflexivity.
  - now rewrite Hf.
  - unfold shapes in IH. now rewrite IH.
Qed.

Lemma update_shapes (rc : Z) (r_edges : list nat) :
  forall st, shapes (cells (update st rc r_edges)) = shapes (cells st).
Proof.
  induction r_edges as [| i r IH]; intros st; simpl; [reflexivity |].
  destruct (nth_error (cells st) i) as [e |]; [| reflexivity].
  destruct (flow e =? capacity e); simpl; [reflexivity |].
  destruct (flow e + rc >? capacity e); [reflexivity |].
  rewrite IH. simpl.
  rewrite !alter_at_shapes; reflexivity || (intros; reflexivity).
Qed.

Lemma update_maxflow (rc : Z) (r_edges : list nat) :
  forall st, maxflow (update st rc r_edges) = maxflow st.
Proof.
  induction r_edges as [| i r IH]; intros st; simpl; [reflexivity |].
  destruct (nth_error (cells st) i) as [e |]; [| reflexivity].
  destruct (flow e =? capacity e); simpl; [reflexivity |].
  destruct (flow e + rc >? capacity e); [reflexivity |].
  now rewrite IH.
Qed.

Lemma update_underscore (rc : Z) (r_edges : list nat) :
  forall st, underscore (update st rc r_edges) = underscore st.
Proof.
  induction r_edges as [| i r IH]; intros st; simpl; [reflexivity |].
  destruct (nth_error (cells st) i) as [e |]; [| reflexivity].
  destruct (flow e =? capacity e); simpl; [reflexivity |].
  destruct (flow e + rc >? capacity e); [reflexivity |].
  now rewrite IH.
Qed.

(** *** The amount chosen for a path and the list [maxflow] *)

Lemma scan_underscore (es : list Edge) (nodes : list (string * string)) :
  forall rc r u u',
    match scan es nodes rc r u, scan es nodes rc r u' with
    | Some (a, b, _), Some (a', b', _) => a = a' /\ b = b'
    | None, None => True
    | _, _ => False
    end.
Proof.
  induction nodes as [| node nodes IH]; intros rc r u u'; simpl; [auto |].
  destruct (Py.first_from (both_in node) es 0) as [[j x] |]; [| exact I].
  destruct (rc =? 0); [apply IH |].
  destruct (rc >? capacity x); apply IH.
Qed.

Lemma scan_amount (es : list Edge) (nodes : list (string * string))
    (u u' : option (string * string)) (rc : Z) (r : list nat) :
  scan es nodes 0 [] u = Some (rc, r, u') -> amount es nodes = Some rc.
Proof.
  intros H. unfold amount.
  pose proof (scan_underscore es nodes 0 [] u None) as Hu.
  rewrite H in Hu.
  destruct (scan es nodes 0 [] None) as [[[a b] c] |]; [| contradiction].
  destruct Hu as [-> _]. reflexivity.
Qed.

Lemma amount_shapes (es es' : list Edge) (nodes : list (string * string)) :
  shapes es = shapes es' -> amount es nodes = amount es' nodes.
Proof. intros H. unfold amount. now rewrite (scan_shapes es es' nodes H). Qed.

Lemma body_inr (st st' : locals) (nodes : list (string * string)) :
  body st nodes = inr st' ->
  exists rc, amount (cells st) nodes = Some rc
             /\ maxflow st' = note (maxflow st) rc
             /\ shapes (cells st') = shapes (cells st).
Proof.
  unfold body.
  destruct (scan (cells st) nodes 0 [] (underscore st))
    as [[[rc r] u] |] eqn:Es; [| discriminate].
  apply scan_amount in Es. cbn [maxflow cells underscore history].
  destruct (Py.in_ints rc (maxflow st)) eqn:Ein; cbn [negb].
  - destruct u; [| discriminate]. intros [= <-]. exists rc.
    unfold note. rewrite Ein. cbn [maxflow cells]. auto.
  - intros [= <-]. exists rc. unfold note. rewrite Ein.
    rewrite update_maxflow, update_shapes. cbn [maxflow cells]. auto.
Qed.

Lemma for_paths_maxflow (visit : list (string * list (string * string))) :
  forall st st',
    for_paths st visit = (st', None) ->
    maxflow st' = fold_left note (map (amt (cells st)) visit) (maxflow st)
    /\ shapes (cells st') = shapes (cells st).
Proof.
  induction visit as [| [p nodes] visit IH]; intros st st'; simpl.
  - intros [= <-]. auto.
  - destruct (body st nodes) as [err | st1] eqn:Eb; [discriminate |].
    intros H. apply IH in H. destruct H as [Hm Hs].
    apply body_inr in Eb. destruct Eb as (rc & Ha & Hn & Hs1).
    split; [| congruence].
    rewrite Hm, Hn.
    replace (amt (cells st) (p, nodes)) with rc
      by (unfold amt; cbn [snd]; now rewrite Ha).
    f_equal. apply map_ext. intros kv. unfold amt.
    now rewrite (amount_shapes _ _ (snd kv) Hs1).
Qed.

Lemma in_ints_In (x : Z) (xs : list Z) : Py.in_ints x xs = true <-> In x xs.
Proof.
  unfold Py.in_ints. rewrite existsb_exists. split.
  - intros [y [Hy E]]. apply Z.eqb_eq in E. now subst.
  - intros H. exists x. split; [assumption | apply Z.eqb_refl].
Qed.

(** [maxflow] holds each amount once. *)
Lemma note_fold (l : list Z) :
  forall m,
    NoDup m ->
    NoDup (fold_left note l m)
    /\ forall x, In x (fold_left note l m) <-> In x m \/ In x l.
Proof.
  induction l as [| rc l IH]; intros m Hm; simpl.
  - split; [assumption |]. intros x. tauto.
  - assert (Hn : NoDup (note m rc) /\
                 forall x, In x (note m rc) <-> In x m \/ rc = x).
    { unfold note. destruct (Py.in_ints rc m) eqn:E.
      - apply in_ints_In in E. split; [assumption |].
        intros x. split; [tauto | intros [H | <-]; assumption].
      - split.
        + apply NoDup_app; [assumption | repeat constructor; intros [] |].
          intros x Hx [<- | []]. apply in_ints_In in Hx. congruence.
        + intros x. rewrite in_app_iff. simpl. tauto. }
    destruct Hn as [Hn Hi]. destruct (IH _ Hn) as [IH1 IH2].
    split; [assumption |]. intros x. rewrite IH2, Hi. tauto.
Qed.

Lemma sum_perm (a b : list Z) : Permutation a b -> Py.sum a = Py.sum b.
Proof.
  unfold Py.sum. induction 1; simpl; lia.
Qed.

(** Same amounts, whatever their order and multiplicity: same sum of the
    noted ones. *)
Lemma note_sum (l l' : list Z) :
  (forall x, In x l <-> In x l') ->
  Py.sum (fold_left note l []) = Py.sum (fold_left note l' []).
Proof.
  intros H. apply sum_perm.
  destruct (note_fold l [] (NoDup_nil _)) as [N1 I1].
  destruct (note_fold l' [] (NoDup_nil _)) as [N2 I2].
  apply NoDup_Permutation; [assumption | assumption |].
  intros x. rewrite I1, I2, H. tauto.
Qed.

(** *** The dictionary [visit] *)

Lemma dict_set_new {V : Type} (d : list (string * V)) (k : string) (v : V) :
  ~ In k (map fst d) -> Py.dict_set d k v = d ++ [(k, v)].
Proof.
  induction d as [| [k' v'] d IH]; simpl; intros H; [reflexivity |].
  destruct (String.eqb_spec k' k) as [-> | _]; [tauto |].
  rewrite IH; [reflexivity | tauto].
Qed.

Lemma build_visit_from (visited : list string) :
  forall acc,
    NoDup (map fst acc ++ visited) ->
    fold_left (fun visit path => Py.dict_set visit path (hops path))
              visited acc
    = acc ++ map (fun p => (p, hops p)) visited.
Proof.
  induction visited as [| p visited IH]; intros acc H; simpl.
  - now rewrite app_nil_r.
  - rewrite dict_set_new.
    + rewrite IH.
      * now rewrite <- app_assoc.
      * rewrite map_app, <- app_assoc. exact H.
    + apply NoDup_remove_2 in H. intros Hin. apply H.
      apply in_or_app. now left.
Qed.

(** Without repetitions in [visited], [visit] lists its paths in order,
    each with its pairs. *)
Lemma build_visit_nodup (visited : list string) :
  NoDup visited ->
  build_visit visited = map (fun p => (p, hops p)) visited.
Proof. intros H. unfold build_visit. now rewrite build_visit_from. Qed.


End FlowFacts.

(* ================================================================== *)
(** ** The update phase: properties of every store it goes through *)

Module Stores.
Import FordFulkerson FlowFacts.

Lemma chain_last {A : Type} (R : A -> A -> Prop) (a b : A) (h : list A) :
  chain R a h b -> nth_error (a :: h) (List.length h) = Some b.
Proof.
  induction 1 as [| h b c _ _ _]; [reflexivity |].
  rewrite length_app. simpl List.length.
  replace (List.length h + 1)%nat with (S (List.length h)) by lia.
  simpl. rewrite nth_error_app2 by lia. now rewrite Nat.sub_diag.
Qed.

Lemma chain_steps {A : Type} (R : A -> A -> Prop) (a b : A) (h : list A) :
  chain R a h b ->
  forall k x y,
    nth_error (a :: h) k = Some x -> nth_error (a :: h) (S k) = Some y ->
    R x y.
Proof.
  induction 1 as [| h b c Hc IH Hbc]; intros k x y Hx Hy.
  - destruct k; discriminate.
  - destruct (Nat.lt_ge_cases (S k) (List.length (a :: h))) as [Hlt | Hge].
    + apply (IH k x y).
      * change (a :: h ++ [c]) with ((a :: h) ++ [c]) in Hx.
        rewrite nth_error_app1 in Hx by lia. exact Hx.
      * change (a :: h ++ [c]) with ((a :: h) ++ [c]) in Hy.
        rewrite nth_error_app1 in Hy by assumption. exact Hy.
    + assert (Hk : k = List.length h).
      { assert (Hsome : nth_error (a :: h ++ [c]) (S k) <> None)
          by congruence.
        apply nth_error_Some in Hsome. simpl in Hsome, Hge.
        rewrite length_app in Hsome. simpl in Hsome. lia. }
      subst k.
      change (a :: h ++ [c]) with ((a :: h) ++ [c]) in Hx.
      rewrite nth_error_app1 in Hx by (simpl; lia).
      rewrite (chain_last R a b h Hc) in Hx. injection Hx as <-.
      simpl in Hy. rewrite nth_error_app2 in Hy by lia.
      rewrite Nat.sub_diag in Hy. injection Hy as <-. exact Hbc.
Qed.

(** *** The amount is never negative when no capacity is *)

Lemma caps_nonneg_shapes (es es' : list Edge) :
  shapes es = shapes es' -> caps_nonneg es -> caps_nonneg es'.
Proof.
  unfold caps_nonneg. revert es'.
  induction es as [| e es IH]; intros [| e' es']; cbn [shapes map];
    try discriminate; [constructor |].
  intros [= _ _ Hc Hs] H. inversion H; subst.
  constructor; [lia | now apply IH].
Qed.

Lemma scan_nonneg (es : list Edge) (nodes : list (string * string)) :
  caps_nonneg es ->
  forall rc0 r0 u0 rc r u,
    0 <= rc0 -> scan es nodes rc0 r0 u0 = Some (rc, r, u) -> 0 <= rc.
Proof.
  intros Hc. induction nodes as [| node nodes IH];
    intros rc0 r0 u0 rc r u H0; simpl.
  - now intros [= <- _ _].
  - destruct (Py.first_from (both_in node) es 0) as [[j x] |] eqn:Ef;
      [| discriminate].
    apply first_from_0, nth_error_In in Ef.
    pose proof (proj1 (Forall_forall _ _) Hc _ Ef) as Hx. cbv beta in Hx.
    destruct (rc0 =? 0); [now apply IH |].
    destruct (rc0 >? capacity x); now apply IH.
Qed.

(** *** An invariant of the store and of its history *)

Section Invariant.

Variable Q : list Edge -> list (list Edge) -> Prop.

(** The two assignments of one accepted edge keep the invariant. *)
Hypothesis Q_write :
  forall (es : list Edge) (h : list (list Edge)) (i : nat) (e : Edge) (rc : Z),
    Q es h -> 0 <= rc -> nth_error es i = Some e ->
    flow e + rc <= capacity e ->
    let es1 := Py.alter_at (add_flow rc) i es in
    let es2 := Py.alter_at (sub_residual rc) i es1 in
    Q es1 (h ++ [es1]) /\ Q es2 ((h ++ [es1]) ++ [es2]).

Lemma update_holds (rc : Z) (r_edges : list nat) :
  0 <= rc -> forall st, holds Q st -> holds Q (update st rc r_edges).
Proof.
  intros Hrc. induction r_edges as [| i r IH]; intros st H; simpl;
    [assumption |].
  destruct (nth_error (cells st) i) as [e |] eqn:En; [| assumption].
  destruct (flow e =? capacity e); simpl; [assumption |].
  destruct (flow e + rc >? capacity e) eqn:Eg; [assumption |].
  apply IH. unfold holds, write. cbn [cells history].
  apply (Q_write (cells st) (history st) i e rc H Hrc En). lia.
Qed.

Lemma body_holds (st st' : locals) (nodes : list (string * string)) :
  caps_nonneg (cells st) -> holds Q st -> body st nodes = inr st' ->
  holds Q st'.
Proof.
  intros Hc H. unfold body.
  destruct (scan (cells st) nodes 0 [] (underscore st))
    as [[[rc r] u] |] eqn:Es; [| discriminate].
  apply scan_nonneg in Es; [| assumption | lia].
  cbn [maxflow cells underscore history].
  destruct (Py.in_ints rc (maxflow st)); cbn [negb].
  - destruct u; [| discriminate]. now intros [= <-].
  - intros [= <-]. now apply update_holds.
Qed.

Lemma for_paths_holds (visit : list (string * list (string * string))) :
  forall st,
    caps_nonneg (cells st) -> holds Q st -> holds Q (fst (for_paths st visit)).
Proof.
  induction visit as [| [p nodes] visit IH]; intros st Hc H; simpl;
    [assumption |].
  destruct (body st nodes) as [err | st1] eqn:Eb; [assumption |].
  apply IH.
  - apply body_inr in Eb. destruct Eb as (_ & _ & _ & Hs).
    now apply (caps_nonneg_shapes (cells st)).
  - now apply (body_holds st st1 nodes).
Qed.

Lemma flow_network_holds (self : t) :
  caps_nonneg (edges self) -> Q (edges self) [] ->
  holds Q (fst (flow_network self)).
Proof.
  intros Hc H0. unfold flow_network.
  pose proof (for_paths_holds (build_visit (visited self))
                (mkLocals (edges self) [] None []) Hc H0) as H.
  destruct (for_paths _ _) as [st err]. exact H.
Qed.

End Invariant.

End Stores.

(* ================================================================== *)
(** ** Capacity bound and monotonicity *)

Module Bounds.
Import FordFulkerson FlowFacts Stores.

Lemma bounded_caps (es : list Edge) : Forall bounded es -> caps_nonneg es.
Proof.
  unfold caps_nonneg. apply Forall_impl. unfold bounded. intros e. lia.
Qed.

Lemma bound_kept (es : list Edge) (h : list (list Edge)) (i : nat) (e : Edge)
    (rc : Z) :
  Forall bounded es /\ Forall (Forall bounded) h ->
  0 <= rc -> nth_error es i = Some e -> flow e + rc <= capacity e ->
  let es1 := Py.alter_at (add_flow rc) i es in
  let es2 := Py.alter_at (sub_residual rc) i es1 in
  (Forall bounded es1 /\ Forall (Forall bounded) (h ++ [es1]))
  /\ (Forall bounded es2 /\ Forall (Forall bounded) ((h ++ [es1]) ++ [es2])).
Proof.
  intros [Hes Hh] Hrc En Hg es1 es2.
  assert (H1 : Forall bounded es1).
  { apply alter_at_Forall; [assumption |].
    intros x Hx. assert (x = e) by congruence. subst x.
    pose proof (proj1 (Forall_forall _ _) Hes e (nth_error_In _ _ En)) as He.
    unfold bounded in *. simpl. lia. }
  assert (H2 : Forall bounded es2).
  { apply alter_at_Forall; [assumption |].
    intros x Hx.
    pose proof (proj1 (Forall_forall _ _) H1 x (nth_error_In _ _ Hx)) as He.
    exact He. }
  repeat split; try assumption.
  - apply Forall_app. split; [assumption | now constructor].
  - apply Forall_app. split; [| now constructor].
    apply Forall_app. split; [assumption | now constructor].
Qed.

Lemma flow_le_refl (es : list Edge) : flow_le es es.
Proof. unfold flow_le. induction es; constructor; auto with zarith. Qed.

Lemma growth_kept (es0 es : list Edge) (h : list (list Edge)) (i : nat)
    (e : Edge) (rc : Z) :
  chain flow_le es0 h es ->
  0 <= rc -> nth_error es i = Some e -> flow e + rc <= capacity e ->
  let es1 := Py.alter_at (add_flow rc) i es in
  let es2 := Py.alter_at (sub_residual rc) i es1 in
  chain flow_le es0 (h ++ [es1]) es1
  /\ chain flow_le es0 ((h ++ [es1]) ++ [es2]) es2.
Proof.
  intros Hc Hrc En Hg es1 es2.
  assert (H1 : chain flow_le es0 (h ++ [es1]) es1).
  { apply (chain_snoc flow_le es0 h es es1 Hc).
    apply alter_at_Forall2.
    - intros x. auto with zarith.
    - intros x Hx. simpl. repeat split. lia. }
  split; [assumption |].
  apply (chain_snoc flow_le es0 _ es1 es2 H1).
  apply alter_at_Forall2.
  - intros x. auto with zarith.
  - intros x Hx. simpl. repeat split. lia.
Qed.

(** C3.  When every edge starts with a flow between 0 and its capacity,
    every edge satisfies 0 <= flow <= capacity in the store the update
    phase ends with and in every store it goes through, one assignment at
    a time, whether the phase prints its total or raises. *)
Theorem capacity_bound_at_every_point (self : t) :
  Forall bounded (edges self) ->
  Forall bounded (cells (fst (flow_network self)))
  /\ forall es, In es (history (fst (flow_network self))) ->
                Forall bounded es.
Proof.
  intros H0.
  pose proof (flow_network_holds
                (fun es h => Forall bounded es /\ Forall (Forall bounded) h)
                bound_kept self (bounded_caps _ H0)
                (conj H0 (Forall_nil _))) as [Hc Hh].
  split; [exact Hc |].
  intros es Hin. exact (proj1 (Forall_forall _ _) Hh es Hin).
Qed.

(** C10.  When no capacity is negative, each assignment of the update
    phase leaves every edge in place with a flow at least as large as
    before: any two consecutive stores, starting from the initial one, are
    related by [flow_le], and the last one is the store the phase ends
    with. *)
Theorem flow_never_decreases (self : t) :
  caps_nonneg (edges self) ->
  (forall k a b,
      nth_error (edges self :: history (fst (flow_network self))) k = Some a ->
      nth_error (edges self :: history (fst (flow_network self))) (S k)
        = Some b ->
      flow_le a b)
  /\ nth_error (edges self :: history (fst (flow_network self)))
               (List.length (history (fst (flow_network self))))
     = Some (cells (fst (flow_network self))).
Proof.
  intros H0.
  pose proof (flow_network_holds
                (fun es h => chain flow_le (edges self) h es)
                (growth_kept (edges self)) self H0
                (chain_nil flow_le (edges self))) as Hc.
  unfold holds in Hc. split.
  - exact (chain_steps flow_le _ _ _ Hc).
  - exact (chain_last flow_le _ _ _ Hc).
Qed.

End Bounds.

(* ================================================================== *)
(** ** The update phase on the sample graph *)

Module SampleFlow.
Import FordFulkerson SearchFacts SampleSearch FlowFacts.

Lemma all_paths_NoDup : NoDup all_paths.
Proof.
  unfold all_paths.
  repeat (constructor; [simpl; intuition discriminate |]). constructor.
Qed.

(** On the sample graph the scan of each of the seven walks succeeds and
    leaves [_] assigned, whatever the flows are. *)
Lemma sample_scan (p : string) (es : list Edge)
    (u : option (string * string)) :
  In p all_paths -> shapes es = shapes (edges sample) ->
  exists rc r x, scan es (hops p) 0 [] u = Some (rc, r, Some x).
Proof.
  intros Hp Hs. rewrite (scan_shapes es (edges sample) (hops p) Hs).
  unfold all_paths in Hp. simpl in Hp.
  repeat (destruct Hp as [<- | Hp];
          [destruct u; vm_compute; do 3 eexists; reflexivity |]).
  contradiction.
Qed.

Lemma sample_for_paths (l : list string) :
  incl l all_paths ->
  forall st,
    shapes (cells st) = shapes (edges sample) ->
    snd (for_paths st (map (fun p => (p, hops p)) l)) = None.
Proof.
  induction l as [| p l IH]; intros Hl st Hs; simpl; [reflexivity |].
  assert (Hp : In p all_paths) by (apply Hl; now left).
  assert (Hl' : incl l all_paths) by (intros x Hx; apply Hl; now right).
  destruct (sample_scan p (cells st) (underscore st) Hp Hs)
    as (rc & r & x & Es).
  unfold body. rewrite Es. cbn [maxflow cells underscore history].
  destruct (Py.in_ints rc (maxflow st)); cbn [negb].
  - apply IH; assumption.
  - apply IH; [assumption |]. now rewrite update_shapes.
Qed.

(** Whatever the order in which the seven walks were recorded, the update
    phase raises nothing and prints 12. *)
Lemma sample_total (self : t) :
  edges self = edges sample -> Permutation (visited self) all_paths ->
  snd (flow_network self) = Printed 12.
Proof.
  intros He Hp.
  assert (Hn : NoDup (visited self))
    by (apply (Permutation_NoDup (Permutation_sym Hp)), all_paths_NoDup).
  unfold flow_network. rewrite (build_visit_nodup _ Hn).
  pose proof (sample_for_paths (visited self)
                (fun x Hx => Permutation_in x Hp Hx)
                (mkLocals (edges self) [] None [])
                (f_equal shapes He)) as Herr.
  destruct (for_paths _ _) as [st err] eqn:Ef. simpl in Herr. subst err.
  apply for_paths_maxflow in Ef. destruct Ef as [Hm _].
  cbn [snd]. f_equal. rewrite Hm. cbn [cells maxflow]. rewrite He.
  rewrite (note_sum _ (map (amt (edges sample))
                           (map (fun p => (p, hops p)) all_paths))).
  - vm_compute. reflexivity.
  - intros x. rewrite !in_map_iff.
    split; intros [kv [Hkv Hin]]; apply in_map_iff in Hin;
      destruct Hin as [p [<- Hin]]; exists (p, hops p);
      (split; [assumption |]); apply in_map_iff; exists p;
      (split; [reflexivity |]).
    + exact (Permutation_in p Hp Hin).
    + exact (Permutation_in p (Permutation_sym Hp) Hin).
Qed.

End SampleFlow.

(* ================================================================== *)
(** ** The search on the sample graph can always still return *)

Module Liveness.
Import FordFulkerson SearchFacts SampleSearch.

(** One iteration of the loop on the sample graph. *)
Lemma sample_step (c : nat) (ds : list nat) (v : list string)
    (p src : string) (e0 : Edge) (seq : list Edge) (nxt : string) :
  Nat.eqb (List.length v) 7 = false -> String.eqb src "T" = false ->
  possible sample src = e0 :: seq -> ev (choice c (e0 :: seq) e0) = nxt ->
  while_loop (c :: ds) (at_ v p) src "T"
  = if String.eqb nxt "T"
    then back nxt (while_loop ds (at_ (record v (p ++ nxt)%string) "S")
                              "S" "T")
    else while_loop ds (at_ v (p ++ nxt)%string) nxt "T".
Proof.
  intros H7 HT Hp Hn. rewrite while_loop_unfold.
  change (possible (at_ v p) src) with (possible sample src).
  change (retry (at_ v p)) with 30. change (visited (at_ v p)) with v.
  rewrite H7, HT, Hp. change (0 <? 30) with true. cbv beta iota zeta.
  cbn [andb negb]. rewrite Hn.
  destruct (String.eqb nxt "T"); [| reflexivity].
  unfold record. cbn [set_path path visited at_ source sink edges retry].
  destruct (Py.in_strs (p ++ nxt) v); reflexivity.
Qed.

Ltac step :=
  erewrite sample_step;
  [ | assumption | reflexivity | reflexivity | lazy; reflexivity ];
  cbn [String.eqb Ascii.eqb Bool.eqb andb String.append].

Ltac walk_with ds q :=
  exists ds, q; split;
  [ unfold all_paths; simpl; tauto
  | intros more; cbn [app]; repeat step; reflexivity ].

(** From any point of a walk, draws exist that take the search to the
    sink; it then records the walk it completed and starts again at S. *)
Lemma finish (v : list string) (p src : string) :
  In (p, src) partial -> Nat.eqb (List.length v) 7 = false ->
  exists ds q,
    In q all_paths
    /\ forall more,
         while_loop (ds ++ more) (at_ v p) src "T"
         = back "T" (while_loop more (at_ (record v q) "S") "S" "T").
Proof.
  intros Hp H7. unfold partial in Hp. simpl in Hp.
  repeat (destruct Hp as [Hp | Hp]; [injection Hp as <- <- |]);
    try contradiction.
  - walk_with [0; 0; 0; 0]%nat "SABCT".
  - walk_with [0; 0; 0]%nat "SABCT".
  - walk_with [0; 0]%nat "SBCT".
  - walk_with [0; 0]%nat "SABCT".
  - walk_with [0]%nat "SACT".
  - walk_with [0]%nat "SABCT".
  - walk_with [0; 0]%nat "SABDCT".
  - walk_with [0]%nat "SABDCT".
  - walk_with [0]%nat "SBCT".
  - walk_with [0; 0]%nat "SBDCT".
  - walk_with [0]%nat "SBDCT".
Qed.

(** Started at S, the draws of a walk make the search record it. *)
Lemma follow (q : string) (v : list string) (more : list nat) :
  In q all_paths -> Nat.eqb (List.length v) 7 = false ->
  while_loop (draws_for q ++ more) (at_ v "S") "S" "T"
  = back "T" (while_loop more (at_ (record v q) "S") "S" "T").
Proof.
  intros Hq H7. unfold all_paths in Hq. simpl in Hq.
  repeat (destruct Hq as [<- | Hq];
          [cbn [draws_for String.eqb Ascii.eqb Bool.eqb andb app];
           repeat step; reflexivity |]).
  contradiction.
Qed.

Lemma record_ok (v : list string) (q : string) :
  NoDup v -> incl v all_paths -> In q all_paths ->
  NoDup (record v q) /\ incl (record v q) all_paths.
Proof.
  intros Hn Hi Hq. unfold record. destruct (Py.in_strs q v) eqn:E.
  - auto.
  - split.
    + apply NoDup_app; [assumption | repeat constructor; intros [] |].
      intros x Hx [<- | []]. apply in_strs_In in Hx. congruence.
    + apply incl_app; [assumption |]. intros x [<- | []]. assumption.
Qed.

(** While fewer than seven walks are recorded, one of the seven is
    missing. *)
Lemma missing (v : list string) :
  NoDup v -> incl v all_paths -> Nat.eqb (List.length v) 7 = false ->
  exists q, In q all_paths /\ Py.in_strs q v = false.
Proof.
  intros Hn Hi H7.
  destruct (forallb (fun q => Py.in_strs q v) all_paths) eqn:E.
  - exfalso. apply Nat.eqb_neq in H7.
    assert (H1 : incl all_paths v).
    { intros q Hq. apply in_strs_In.
      exact (proj1 (forallb_forall _ _) E q Hq). }
    pose proof (NoDup_incl_length Hn Hi) as L1.
    pose proof (NoDup_incl_length SampleFlow.all_paths_NoDup H1) as L2.
    simpl in L1, L2. lia.
  - assert (H : exists q, In q all_paths
                          /\ (fun q => Py.in_strs q v) q = false).
    { clear - E. induction all_paths as [| a l IH]; [discriminate |].
      simpl in E. apply andb_false_iff in E. destruct E as [E | E].
      - exists a. split; [now left | exact E].
      - destruct (IH E) as (q & Hq & Hf). exists q. split; [now right |].
        exact Hf. }
    exact H.
Qed.

Lemma returns_at_seven (ds : list nat) (self : t) (src snk : string) :
  Nat.eqb (List.length (visited self)) 7 = true ->
  while_loop ds self src snk = Returned self.
Proof.
  intros H7. rewrite while_loop_unfold, H7. cbn [negb].
  now rewrite andb_false_r.
Qed.

(** Started at S, the search can record what is missing and return. *)
Lemma complete_from_S (k : nat) :
  forall v,
    NoDup v -> incl v all_paths -> (7 - List.length v = k)%nat ->
    exists ds self', while_loop ds (at_ v "S") "S" "T" = Returned self'.
Proof.
  induction k as [| k IH]; intros v Hn Hi Hk;
    pose proof (NoDup_incl_length Hn Hi) as Hl; simpl in Hl.
  - exists [], (at_ v "S"). apply returns_at_seven.
    apply Nat.eqb_eq. simpl. lia.
  - assert (H7 : Nat.eqb (List.length v) 7 = false)
      by (apply Nat.eqb_neq; lia).
    destruct (missing v Hn Hi H7) as (q & Hq & Hf).
    destruct (record_ok v q Hn Hi Hq) as [Hn' Hi'].
    destruct (IH (record v q) Hn' Hi') as (ds & s' & Hs).
    { unfold record. rewrite Hf, length_app. cbn [List.length]. lia. }
    exists (draws_for q ++ ds). eexists.
    rewrite (follow q v ds Hq H7), Hs. reflexivity.
Qed.

(** From any point of the search, draws exist with which it returns. *)
Lemma complete_from_any (v : list string) (p src : string) :
  In (p, src) partial -> NoDup v -> incl v all_paths ->
  exists ds self', while_loop ds (at_ v p) src "T" = Returned self'.
Proof.
  intros Hp Hn Hi.
  destruct (Nat.eqb (List.length v) 7) eqn:H7.
  - exists [], (at_ v p). now apply returns_at_seven.
  - destruct (finish v p src Hp H7) as (ds1 & q & Hq & Hf).
    destruct (record_ok v q Hn Hi Hq) as [Hn' Hi'].
    destruct (complete_from_S _ (record v q) Hn' Hi' eq_refl)
      as (ds2 & s' & Hs).
    exists (ds1 ++ ds2). eexists. rewrite Hf, Hs. reflexivity.
Qed.

(** Whatever the search has drawn, it can go on to return. *)
Lemma extend (draws : list nat) :
  forall v p src,
    In (p, src) partial -> NoDup v -> incl v all_paths ->
    exists more self',
      while_loop (draws ++ more) (at_ v p) src "T" = Returned self'.
Proof.
  induction draws as [| c draws IH]; intros v p src Hp Hn Hi.
  - destruct (complete_from_any v p src Hp Hn Hi) as (ds & s' & Hs).
    exists ds, s'. exact Hs.
  - destruct (Nat.eqb (List.length v) 7) eqn:H7.
    + exists [], (at_ v p). now apply returns_at_seven.
    + pose proof (proj1 (forallb_forall _ _) partial_closed _ Hp) as Hok.
      unfold step_ok in Hok. cbn [fst snd] in Hok.
      apply andb_true_iff in Hok. destruct Hok as [Hok Hall].
      apply andb_true_iff in Hok. destruct Hok as [HT Hne].
      apply negb_true_iff in HT.
      destruct (possible sample src) as [| e0 seq] eqn:Eposs;
        [discriminate |].
      pose proof (choice_In c e0 seq e0) as Hin.
      pose proof (proj1 (forallb_forall _ _) Hall _ Hin) as Hstep.
      cbv beta in Hstep.
      destruct (String.eqb (ev (choice c (e0 :: seq) e0)) "T") eqn:ET.
      * apply in_strs_In in Hstep.
        destruct (record_ok v _ Hn Hi Hstep) as [Hn' Hi'].
        destruct (IH _ "S" "S" (or_introl eq_refl) Hn' Hi')
          as (more & s' & Hs).
        exists more. eexists. cbn [app].
        rewrite (sample_step c _ v p src e0 seq _ H7 HT Eposs eq_refl).
        rewrite ET, Hs. reflexivity.
      * apply pair_eqb_In in Hstep.
        destruct (IH v _ _ Hstep Hn Hi) as (more & s' & Hs).
        exists more, s'. cbn [app].
        rewrite (sample_step c _ v p src e0 seq _ H7 HT Eposs eq_refl).
        rewrite ET. exact Hs.
Qed.

End Liveness.

(* ================================================================== *)
(** ** The sample scenario *)

Module SampleRun.
Import FordFulkerson SearchFacts SampleSearch FlowFacts SampleFlow.

Lemma main_completed (draws : list nat) (ford : t) (st : locals)
    (e : ending) :
  main draws = Completed ford st e -> e = Printed 12.
Proof.
  unfold main, compute. change (source sample) with "S".
  change (sink sample) with "T".
  destruct (path_finder draws sample "S" "T") as [self' | | self'] eqn:Es;
    try discriminate.
  apply sample_search_returns in Es. destruct Es as [Hp He].
  pose proof (sample_total self' He Hp) as Ht.
  destruct (flow_network self') as [st' e']. simpl in Ht.
  intros [= _ _ <-]. exact Ht.
Qed.

(** C1.  On the sample graph, whatever the path search has drawn so far,
    there are further draws with which the run carries out both phases
    and prints the total 12; and every run that carries out both phases
    prints the total 12, whatever the random draws of the path search
    were. *)
Theorem sample_total_is_12 :
  (forall draws,
      exists more ford st,
        main (draws ++ more) = Completed ford st (Printed 12))
  /\ forall draws ford st e,
       main draws = Completed ford st e -> e = Printed 12.
Proof.
  split; [| exact main_completed].
  intros draws.
  destruct (Liveness.extend draws [] "S" "S") as (more & s' & Hs).
  - left. reflexivity.
  - constructor.
  - intros x [].
  - exists more.
    assert (Hp : path_finder (draws ++ more) sample "S" "T" = Returned s')
      by exact Hs.
    assert (Hm : exists st e, main (draws ++ more) = Completed s' st e).
    { unfold main, compute. change (source sample) with "S".
      change (sink sample) with "T". rewrite Hp.
      destruct (flow_network s') as [st e]. now exists st, e. }
    destruct Hm as (st & e & Hm). exists s', st.
    rewrite Hm. f_equal. exact (main_completed _ _ _ _ Hm).
Qed.

End SampleRun.

(* ================================================================== *)
(** ** Runs on one graph compared *)

Module Determinism.
Import FordFulkerson SearchFacts SampleSearch FlowFacts SampleFlow SampleRun.




End Determinism.

(* ================================================================== *)
(** ** Flow conservation *)

Module Conservation.
Import FordFulkerson SampleFlow.

(** C4 fails on the sample graph.  When the search records SACT first and
    SBDCT second, the update of SBDCT adds 3 to S->B, B->D and D->C and
    stops at C->T, which would exceed its capacity; the run prints 12 and
    ends with 12 units entering C and 9 leaving it, and with 12 leaving S
    and 9 entering T. *)
Theorem sample_run_breaks_conservation :
  balance (main draws_other_order) "C" = Some (12, 12, 9)
  /\ balance (main draws_other_order) "S" = Some (12, 0, 12)
  /\ balance (main draws_other_order) "T" = Some (12, 9, 0).
Proof. vm_compute. repeat split; reflexivity. Qed.

End Conservation.

(* ================================================================== *)
(** ** The update of one path *)

Module PathUpdate.
Import FordFulkerson FlowFacts SampleFlow.

(** *** Whole updates and updates that change nothing *)

Lemma update_first_stops (st : locals) (rc : Z) (i : nat)
    (r : list nat) (e : Edge) :
  nth_error (cells st) i = Some e ->
  flow e = capacity e \/ flow e + rc > capacity e ->
  update st rc (i :: r) = st.
Proof.
  intros En H. simpl. rewrite En.
  destruct (Z.eqb_spec (flow e) (capacity e)) as [_ | Hne]; [reflexivity |].
  simpl. destruct H as [H | H]; [contradiction |].
  destruct (Z.gtb_spec (flow e + rc) (capacity e)); [reflexivity | lia].
Qed.

Lemma update_whole (rc : Z) (r : list nat) :
  forall st,
    NoDup r ->
    (forall i, In i r ->
               exists e, nth_error (cells st) i = Some e
                         /\ flow e <> capacity e
                         /\ flow e + rc <= capacity e) ->
    (forall i e, In i r -> nth_error (cells st) i = Some e ->
                 nth_error (cells (update st rc r)) i = Some (pushed rc e))
    /\ (forall j, ~ In j r ->
                  nth_error (cells (update st rc r)) j
                  = nth_error (cells st) j).
Proof.
  induction r as [| i r IH]; intros st Hn Hok.
  - split; [intros i e [] | reflexivity].
  - apply NoDup_cons_iff in Hn. destruct Hn as [Hi Hn].
    destruct (Hok i (or_introl eq_refl)) as (e & En & Hne & Hle).
    simpl. rewrite En.
    destruct (Z.eqb_spec (flow e) (capacity e)) as [Heq | _];
      [contradiction |].
    simpl.
    destruct (Z.gtb_spec (flow e + rc) (capacity e)) as [Hgt | _]; [lia |].
    set (st2 := write (write st i (add_flow rc)) i (sub_residual rc)).
    assert (Hsame : nth_error (cells st2) i = Some (pushed rc e)).
    { subst st2. unfold write, pushed. cbn [cells].
      apply alter_at_same. now apply alter_at_same. }
    assert (Hother : forall j, j <> i ->
                               nth_error (cells st2) j
                               = nth_error (cells st) j).
    { intros j Hj. subst st2. unfold write. cbn [cells].
      rewrite !alter_at_other by congruence. reflexivity. }
    destruct (IH st2 Hn) as [IHa IHb].
    { intros j Hj. rewrite Hother by (intros ->; contradiction).
      apply Hok. now right. }
    split.
    + intros j x [<- | Hj] Hx.
      * rewrite IHb by assumption. congruence.
      * apply IHa; [assumption |].
        rewrite Hother by (intros ->; contradiction). exact Hx.
    + intros j Hj. rewrite IHb by (intros H; apply Hj; now right).
      apply Hother. intros ->. apply Hj. now left.
Qed.

(** C5, as amended.  For a path whose scan gives the amount [rc] and the
    positions [r_edges] of the edges looked up for its pairs ([temp[0]]:
    for each pair the first edge of the view that has both nodes among
    its end points, whatever its direction): when the amount is already
    in [maxflow], or when the first looked-up edge is full or would
    exceed its capacity, the body leaves the store unchanged; when the
    amount is new, no edge is looked up twice and no looked-up edge is
    full or would exceed its capacity, every looked-up edge has its flow
    raised and its residual lowered by the amount and every other edge
    is left as it was.  A path stopped at a later edge is not covered. *)
Theorem path_update_whole_or_nothing (st : locals)
    (nodes : list (string * string)) (rc : Z) (r_edges : list nat)
    (u : option (string * string)) :
  scan (cells st) nodes 0 [] (underscore st) = Some (rc, r_edges, u) ->
  (Py.in_ints rc (maxflow st) = true ->
   forall st', body st nodes = inr st' -> cells st' = cells st)
  /\ (forall i r e,
         r_edges = i :: r -> nth_error (cells st) i = Some e ->
         flow e = capacity e \/ flow e + rc > capacity e ->
         forall st', body st nodes = inr st' -> cells st' = cells st)
  /\ (Py.in_ints rc (maxflow st) = false ->
      NoDup r_edges ->
      (forall i, In i r_edges ->
                 exists e, nth_error (cells st) i = Some e
                           /\ flow e <> capacity e
                           /\ flow e + rc <= capacity e) ->
      exists st',
        body st nodes = inr st'
        /\ (forall i e, In i r_edges -> nth_error (cells st) i = Some e ->
                        nth_error (cells st') i = Some (pushed rc e))
        /\ (forall j, ~ In j r_edges ->
                      nth_error (cells st') j = nth_error (cells st) j)).
Proof.
  intros Es. unfold body. rewrite Es.
  cbn [maxflow cells underscore history]. repeat split.
  - intros Hin st'. rewrite Hin. cbn [negb].
    destruct u; [| discriminate]. now intros [= <-].
  - intros i r e -> En Hstop st'.
    destruct (Py.in_ints rc (maxflow st)); cbn [negb].
    + destruct u; [| discriminate]. now intros [= <-].
    + intros [= <-].
      change (cells (update (mkLocals (cells st) (maxflow st ++ [rc]) u
                                      (history st)) rc (i :: r))
              = cells st).
      rewrite (update_first_stops _ rc i r e);
        [reflexivity | exact En | exact Hstop].
  - intros Hin Hn Hok. rewrite Hin. cbn [negb].
    eexists. split; [reflexivity |].
    apply (update_whole rc r_edges
             (mkLocals (cells st) (maxflow st ++ [rc]) u (history st)));
      assumption.
Qed.

(** The claim of C5 fails on the sample graph: once SACT has been
    processed, the body run on SBDCT takes the amount 3 and the edges
    S->B, B->D, D->C, C->T (positions 1, 5, 7, 6); it raises the first
    three and stops at C->T, whose flow 8 cannot take 3 more under the
    capacity 10. *)
Lemma sbdct_update_is_partial :
  scan (cells after_SACT) (hops "SBDCT") 0 [] (underscore after_SACT)
  = Some (3, [1; 5; 7; 6]%nat, Some ("B", "D"))
  /\ match body after_SACT (hops "SBDCT") with
     | inr st' =>
         map flow (cells after_SACT) = [8; 0; 0; 8; 0; 0; 8; 0; 0]
         /\ map flow (cells st') = [8; 3; 0; 8; 0; 3; 8; 3; 0]
         /\ ~ all_or_nothing (cells after_SACT) (cells st') 3
                             [1; 5; 7; 6]%nat
     | inl _ => False
     end.
Proof.
  split; [vm_compute; reflexivity |].
  destruct (body after_SACT (hops "SBDCT")) as [err | st'] eqn:Eb;
    vm_compute in Eb; [discriminate |].
  injection Eb as <-.
  split; [vm_compute; reflexivity |].
  split; [vm_compute; reflexivity |].
  intros [Hall | Hnone].
  - destruct (Hall 6%nat (mkEdge "C" "T" 10 8 2)) as (e' & He' & Hf).
    + simpl. tauto.
    + vm_compute. reflexivity.
    + vm_compute in He'. injection He' as <-. simpl in Hf. discriminate.
  - vm_compute in Hnone. discriminate.
Qed.

End PathUpdate.

(* ================================================================== *)
(** ** The amount applied to a path *)

Module Bottleneck.
Import FordFulkerson FlowFacts SampleFlow PathUpdate.

Lemma scan_min (es : list Edge) (nodes : list (string * string)) :
  forall a rc0 r0 u0 rc r u,
    arcs es nodes = Some a ->
    Forall (fun e => 0 < capacity e) a ->
    0 <= rc0 ->
    scan es nodes rc0 r0 u0 = Some (rc, r, u) ->
    rc = match list_min (map capacity a) with
         | None => rc0
         | Some m => if rc0 =? 0 then m else Z.min rc0 m
         end.
Proof.
  induction nodes as [| node nodes IH]; intros a rc0 r0 u0 rc r u; simpl.
  - intros [= <-] _ _ [= <- _ _]. reflexivity.
  - destruct (Py.first_from (both_in node) es 0) as [[j x] |];
      [| discriminate].
    destruct (arcs es nodes) as [a' |] eqn:Ea; [| discriminate].
    intros [= <-] Hpos H0. inversion Hpos as [| ? ? Hx Hpos']; subst.
    cbn [map list_min].
    destruct (Z.eqb_spec rc0 0) as [-> | Hnz].
    + intros H. apply (IH a') in H; [| reflexivity | assumption | lia].
      rewrite H. destruct (list_min (map capacity a')) as [m |];
        [| reflexivity].
      destruct (Z.eqb_spec (capacity x) 0); [lia | reflexivity].
    + destruct (Z.gtb_spec rc0 (capacity x)) as [Hgt | Hle]; intros H;
        apply (IH a') in H; try reflexivity; try assumption; try lia;
        rewrite H; destruct (list_min (map capacity a')) as [m |];
        try (destruct (Z.eqb_spec (capacity x) 0); [lia |]);
        try (destruct (Z.eqb_spec rc0 0); [lia |]); lia.
Qed.

(** C6, as amended.  Let [a] be the edges looked up for the pairs of a
    path ([temp[0]]: for each pair the first edge of the view that has
    both nodes among its end points, whatever its direction).  When there
    is at least one and each has a positive capacity, the amount the scan
    of the path ends with is the minimum of the capacities of the edges
    of [a]; it is their minimum residual capacity when none of them
    carries flow yet. *)
Theorem amount_is_min_capacity (es : list Edge)
    (nodes : list (string * string)) (a : list Edge) (rc : Z)
    (r : list nat) (u0 u : option (string * string)) :
  arcs es nodes = Some a -> a <> [] ->
  Forall (fun e => 0 < capacity e) a ->
  scan es nodes 0 [] u0 = Some (rc, r, u) ->
  list_min (map capacity a) = Some rc
  /\ (Forall (fun e => flow e = 0) a -> spec_bottleneck es nodes = Some rc).
Proof.
  intros Ha Hne Hpos Hs.
  assert (Hmin : list_min (map capacity a) = Some rc).
  { pose proof (scan_min es nodes a 0 [] u0 rc r u Ha Hpos
                  (Z.le_refl 0) Hs) as H.
    destruct a as [| x a]; [contradiction |].
    cbn [map list_min] in *.
    destruct (list_min (map capacity a)); simpl in H; now subst. }
  split; [exact Hmin |].
  intros Hz. unfold spec_bottleneck. rewrite Ha. rewrite <- Hmin.
  f_equal. apply map_ext_in. intros e He.
  pose proof (proj1 (Forall_forall _ _) Hz e He) as H0. cbv beta in H0. lia.
Qed.

(** The claim of C6 fails on the sample graph: once SACT has been
    processed, the scan of SBDCT ends with the amount 3, the smallest
    capacity on the path, while the smallest residual capacity on it is
    2, on C->T; the amount 3 is what S->B receives. *)
Lemma sbdct_amount_exceeds_residual :
  scan (cells after_SACT) (hops "SBDCT") 0 [] (underscore after_SACT)
  = Some (3, [1; 5; 7; 6]%nat, Some ("B", "D"))
  /\ spec_bottleneck (cells after_SACT) (hops "SBDCT") = Some 2
  /\ match body after_SACT (hops "SBDCT") with
     | inr st' =>
         option_map flow (nth_error (cells after_SACT) 1) = Some 0
         /\ option_map flow (nth_error (cells st') 1) = Some 3
     | inl _ => False
     end.
Proof. vm_compute. repeat split; reflexivity. Qed.

End Bottleneck.

(* ================================================================== *)
(** ** A graph on which the search never returns *)

Module TwoCycle.
Import FordFulkerson SearchFacts.

Lemma append_length (a b : string) :
  String.length (a ++ b)%string = (String.length a + String.length b)%nat.
Proof. induction a as [| c a IH]; simpl; congruence. Qed.

Lemma choice_single {A : Type} (c : nat) (x d : A) : choice c [x] d = x.
Proof. unfold choice. simpl List.length. now rewrite Nat.mod_1_r. Qed.

(** On the two-cycle every iteration moves to the other node and asks for
    one more draw. *)
Lemma two_cycle_loop (draws : list nat) :
  forall (self : t) (src : string),
    edges self = edges two_cycle -> retry self = 30 -> visited self = [] ->
    src = "S" \/ src = "A" ->
    exists self',
      while_loop draws self src "T" = Starved self'
      /\ visited self' = [] /\ retry self' = 30
      /\ String.length (path self')
         = (String.length (path self) + List.length draws)%nat.
Proof.
  induction draws as [| c draws IH]; intros self src He Hr Hv Hsrc;
    rewrite while_loop_unfold;
    assert (Hposs : possible self src = possible two_cycle src)
      by (unfold possible; now rewrite He);
    rewrite Hr, Hv, Hposs.
  - exists self. destruct Hsrc as [-> | ->]; simpl;
      repeat split; auto; lia.
  - destruct Hsrc as [-> | ->].
    + change (possible two_cycle "S") with [mkEdge "S" "A" 1 0 1].
      cbv beta iota zeta. rewrite choice_single.
      change (ev (mkEdge "S" "A" 1 0 1)) with "A".
      change (0 <? 30) with true. change (("S" =? "T")%string) with false.
      change (("A" =? "T")%string) with false.
      cbv beta iota.
      destruct (IH (set_path self (path self ++ "A")%string) "A")
        as (s' & Hw & Hv' & Hr' & Hl); auto.
      exists s'. repeat split; try assumption.
      rewrite Hl. cbn [set_path path]. rewrite append_length. simpl. lia.
    + change (possible two_cycle "A") with [mkEdge "A" "S" 1 0 1].
      cbv beta iota zeta. rewrite choice_single.
      change (ev (mkEdge "A" "S" 1 0 1)) with "S".
      change (0 <? 30) with true. change (("A" =? "T")%string) with false.
      change (("S" =? "T")%string) with false.
      cbv beta iota.
      destruct (IH (set_path self (path self ++ "S")%string) "S")
        as (s' & Hw & Hv' & Hr' & Hl); auto.
      exists s'. repeat split; try assumption.
      rewrite Hl. cbn [set_path path]. rewrite append_length. simpl. lia.
Qed.

Lemma two_cycle_compute (draws : list nat) :
  exists self,
    compute draws two_cycle = Searching self
    /\ visited self = [] /\ retry self = 30
    /\ String.length (path self) = S (List.length draws).
Proof.
  destruct (two_cycle_loop draws (set_path two_cycle "S") "S")
    as (s' & Hw & Hv & Hr & Hl); auto.
  exists s'. unfold compute, path_finder.
  change (source two_cycle) with "S". change (sink two_cycle) with "T".
  change (path two_cycle ++ "S")%string with "S".
  change (("S" =? "")%string || ("T" =? "")%string) with false.
  cbv iota. rewrite Hw. auto.
Qed.

(** A search that cannot walk to the sink records nothing. *)
Lemma unreachable_loop (draws : list nat) :
  forall (self : t) (c snk : string),
    (forall b, walk (edges self) c b -> b <> snk) ->
    match reached (while_loop draws self c snk) with
    | Some self' => visited self' = visited self
    | None => True
    end.
Proof.
  induction draws as [| d draws IH]; intros self c snk Hun;
    rewrite while_loop_unfold.
  - destruct (_ && _); [destruct (possible self c) |]; reflexivity.
  - destruct ((0 <? retry self) && negb (String.eqb c snk)
              && negb (Nat.eqb (List.length (visited self)) 7));
      [| reflexivity].
    destruct (possible self c) as [| e0 seq] eqn:Ep; [reflexivity |].
    cbv zeta.
    assert (Hin : In (choice d (e0 :: seq) e0)
                     (filter (fun e => Py.str_in c (eu e)) (edges self))).
    { change (filter (fun e => Py.str_in c (eu e)) (edges self))
        with (possible self c).
      rewrite Ep. apply choice_In. }
    destruct (String.eqb_spec (ev (choice d (e0 :: seq) e0)) snk)
      as [Heq | Hne].
    + exfalso. apply (Hun (ev (choice d (e0 :: seq) e0))); [| exact Heq].
      apply (walk_step _ _ _ _ Hin). apply walk_here.
    + match goal with
      | |- context [while_loop draws ?s ?a ?b] => apply (IH s a b)
      end.
      intros b Hb. apply Hun. exact (walk_step _ _ _ _ Hin Hb).
Qed.

(** When the sink cannot be walked to from the source and the search does
    return, the update phase finds no path to process, changes no edge
    and prints 0. *)
Lemma unreachable_sink_prints_zero (ford f : t) (draws : list nat)
    (st : locals) (e : ending) :
  visited ford = [] ->
  (forall b, walk (edges ford) (source ford) b -> b <> sink ford) ->
  compute draws ford = Completed f st e ->
  e = Printed 0 /\ cells st = edges ford.
Proof.
  intros Hv Hun. unfold compute, path_finder.
  destruct (_ || _); [discriminate |].
  pose proof (unreachable_loop draws
                (set_path ford (path ford ++ source ford)%string)
                (source ford) (sink ford) Hun) as H1.
  pose proof (while_loop_edges draws
                (set_path ford (path ford ++ source ford)%string)
                (source ford) (sink ford)) as H2.
  destruct (while_loop draws _ (source ford) (sink ford))
    as [g | | g]; try discriminate.
  simpl in H1, H2. rewrite Hv in H1.
  unfold flow_network. rewrite H1, H2. simpl.
  intros [= _ <- <-]. auto.
Qed.

Lemma two_cycle_walk (a b : string) :
  walk (edges two_cycle) a b -> a = "S" \/ a = "A" -> b = "S" \/ b = "A".
Proof.
  induction 1 as [a | a b e Hin _ IH]; intros Ha; [exact Ha |].
  apply IH. destruct Ha as [-> | ->]; simpl in Hin;
    destruct Hin as [<- | []]; simpl; auto.
Qed.

(** C7 fails on the two-cycle.  The sink T cannot be walked to from the
    source S; yet whatever draws the search is given, and however many, it
    has not returned when they are used up and has recorded no path: the
    run never reaches the point where it would print 0. *)
Theorem unreachable_sink_search_never_returns :
  ~ walk (edges two_cycle) (source two_cycle) (sink two_cycle)
  /\ forall draws,
       exists self,
         compute draws two_cycle = Searching self /\ visited self = [].
Proof.
  split.
  - intros H. apply two_cycle_walk in H; [| now left].
    destruct H; discriminate.
  - intros draws. destruct (two_cycle_compute draws) as (s & H & Hv & _).
    exists s. auto.
Qed.

(** C8 fails on the two-cycle, a finite graph whose three capacities are
    1.  After any number [n] of iterations of the search loop, the loop
    is still running: it has walked [n] edges and asks for another draw.
    The counter [retry] stays at 30. *)
Theorem search_loop_runs_forever :
  Forall (fun e => 0 <= capacity e) (edges two_cycle)
  /\ forall draws,
       exists self,
         compute draws two_cycle = Searching self
         /\ String.length (path self) = S (List.length draws)
         /\ retry self = 30.
Proof.
  split; [repeat constructor; simpl; lia |].
  intros draws.
  destruct (two_cycle_compute draws) as (s & H & _ & Hr & Hl).
  exists s. auto.
Qed.

End TwoCycle.

(* ================================================================== *)
(** ** The limit of seven recorded paths *)

Module SevenPaths.
Import FordFulkerson SearchFacts FlowFacts.

Lemma dict_set_length {V : Type} (d : list (string * V)) (k : string)
    (v : V) :
  (List.length d <= List.length (Py.dict_set d k v) <= S (List.length d))%nat.
Proof.
  induction d as [| [k' v'] d IH]; simpl; [lia |].
  destruct (String.eqb k' k); simpl; lia.
Qed.

Lemma build_visit_length (visited : list string) :
  (List.length (build_visit visited) <= List.length visited)%nat.
Proof.
  unfold build_visit.
  enough (H : forall acc,
             (List.length
                (fold_left
                   (fun visit path => Py.dict_set visit path (hops path))
                   visited acc)
              <= List.length acc + List.length visited)%nat)
    by (specialize (H []); simpl in H; lia).
  induction visited as [| p l IH]; intros acc; simpl; [lia |].
  specialize (IH (Py.dict_set acc p (hops p))).
  pose proof (dict_set_length acc p (hops p)). lia.
Qed.

(** C9.  Starting from the empty list the constructor sets, the list
    [visited] holds at most seven paths, all different, in every state the
    search reaches, whether it has returned or is still running, so the
    update phase goes through at most seven paths; and with seven paths
    recorded the loop returns at once, taking no further draw. *)
Theorem at_most_seven_paths (draws : list nat) (ford : t)
    (src snk : string) :
  visited ford = [] ->
  (forall self',
      reached (path_finder draws ford src snk) = Some self' ->
      NoDup (visited self')
      /\ (List.length (visited self') <= 7)%nat
      /\ (List.length (build_visit (visited self')) <= 7)%nat)
  /\ (forall self more,
         List.length (visited self) = 7%nat ->
         while_loop more self src snk = Returned self).
Proof.
  intros Hv. split.
  - intros self'. unfold path_finder.
    destruct (_ || _); [discriminate |].
    pose proof (while_loop_tidy draws
                  (set_path ford (path ford ++ src)%string) src snk) as H.
    intros Hr. rewrite Hr in H.
    destruct H as [Hn Hl].
    + cbn [set_path visited]. rewrite Hv. split; [constructor | simpl; lia].
    + repeat split; try assumption.
      pose proof (build_visit_length (visited self')). lia.
  - intros self more H7. rewrite while_loop_unfold, H7.
    cbn [Nat.eqb negb]. now rewrite andb_false_r.
Qed.

End SevenPaths.

(* ================================================================== *)
(** ** The theorems at concrete inputs *)

Module Instances.
Import FordFulkerson SearchFacts SampleSearch FlowFacts Stores Bounds.
Import SampleFlow SampleRun Determinism PathUpdate Bottleneck SevenPaths.

Lemma sample_bounded : Forall bounded (edges two_paths).
Proof. repeat constructor; simpl; lia. Defined.

Lemma sample_caps_nonneg : caps_nonneg (edges two_paths).
Proof. repeat constructor; simpl; lia. Defined.

Lemma sample_total_is_12_witness :
  exists ford st e,
    main draws_other_order = Completed ford st e /\ e = Printed 12.
Proof.
  assert (H : exists ford st e, main draws_other_order = Completed ford st e)
    by (vm_compute; do 3 eexists; reflexivity).
  destruct H as (ford & st & e & H).
  exists ford, st, e. split; [exact H |].
  exact (proj2 sample_total_is_12 draws_other_order ford st e H).
Defined.


Lemma capacity_bound_at_every_point_witness :
  Forall bounded (edges two_paths)
  /\ Forall bounded (cells (fst (flow_network two_paths)))
  /\ forall es, In es (history (fst (flow_network two_paths))) ->
                Forall bounded es.
Proof.
  split; [exact sample_bounded |].
  exact (capacity_bound_at_every_point two_paths sample_bounded).
Defined.

Lemma flow_never_decreases_witness :
  caps_nonneg (edges two_paths)
  /\ nth_error (edges two_paths :: history (fst (flow_network two_paths)))
               (List.length (history (fst (flow_network two_paths))))
     = Some (cells (fst (flow_network two_paths))).
Proof.
  split; [exact sample_caps_nonneg |].
  exact (proj2 (flow_never_decreases two_paths sample_caps_nonneg)).
Defined.

Lemma path_update_whole_or_nothing_witness :
  scan (cells fresh) (hops "SACT") 0 [] (underscore fresh)
  = Some (8, [0; 3; 6]%nat, Some ("A", "C"))
  /\ exists st',
       body fresh (hops "SACT") = inr st'
       /\ nth_error (cells st') 0 = Some (mkEdge "S" "A" 9 8 1)
       /\ nth_error (cells st') 1 = Some (mkEdge "S" "B" 9 0 9).
Proof.
  assert (Es : scan (cells fresh) (hops "SACT") 0 [] (underscore fresh)
               = Some (8, [0; 3; 6]%nat, Some ("A", "C")))
    by (vm_compute; reflexivity).
  split; [exact Es |].
  destruct (path_update_whole_or_nothing fresh (hops "SACT") 8
              [0; 3; 6]%nat (Some ("A", "C")) Es) as (_ & _ & H).
  destruct H as (st' & Hb & Hin & Hout).
  - reflexivity.
  - repeat (constructor; [simpl; intuition discriminate |]). constructor.
  - intros i [<- | [<- | [<- | []]]]; eexists;
      (split; [reflexivity | simpl; split; lia]).
  - exists st'. split; [exact Hb |]. split.
    + apply (Hin 0%nat (mkEdge "S" "A" 9 0 9)); [simpl; tauto | reflexivity].
    + rewrite (Hout 1%nat); [reflexivity | simpl; intuition discriminate].
Defined.

Lemma amount_is_min_capacity_witness :
  arcs (edges sample) (hops "SACT")
  = Some [mkEdge "S" "A" 9 0 9; mkEdge "A" "C" 8 0 8; mkEdge "C" "T" 10 0 10]
  /\ list_min (map capacity
                 [mkEdge "S" "A" 9 0 9; mkEdge "A" "C" 8 0 8;
                  mkEdge "C" "T" 10 0 10]) = Some 8
  /\ spec_bottleneck (edges sample) (hops "SACT") = Some 8.
Proof.
  assert (Ha : arcs (edges sample) (hops "SACT")
               = Some [mkEdge "S" "A" 9 0 9; mkEdge "A" "C" 8 0 8;
                       mkEdge "C" "T" 10 0 10])
    by (vm_compute; reflexivity).
  assert (Es : scan (edges sample) (hops "SACT") 0 [] None
               = Some (8, [0; 3; 6]%nat, Some ("A", "C")))
    by (vm_compute; reflexivity).
  split; [exact Ha |].
  destruct (amount_is_min_capacity (edges sample) (hops "SACT") _ 8
              [0; 3; 6]%nat None (Some ("A", "C")) Ha) as [Hmin Hspec].
  - discriminate.
  - repeat constructor; simpl; lia.
  - exact Es.
  - split; [exact Hmin |]. apply Hspec. repeat constructor.
Defined.

Lemma at_most_seven_paths_witness :
  visited sample = []
  /\ (forall self',
         reached (path_finder draws_in_order sample "S" "T") = Some self' ->
         NoDup (visited self')
         /\ (List.length (visited self') <= 7)%nat
         /\ (List.length (build_visit (visited self')) <= 7)%nat)
  /\ (forall self more,
         List.length (visited self) = 7%nat ->
         while_loop more self "S" "T" = Returned self).
Proof.
  split; [reflexivity |].
  exact (at_most_seven_paths draws_in_order sample "S" "T" eq_refl).
Defined.

End Instances.

(* ================================================================== *)
(** ** Further properties of the path search *)

Module SearchMore.
Import FordFulkerson SearchFacts.

Lemma append_nil_r (s : string) : (s ++ "")%string = s.
Proof. induction s as [| c s IH]; simpl; congruence. Qed.

Lemma append_assoc (a b c : string) :
  ((a ++ b) ++ c)%string = (a ++ (b ++ c))%string.
Proof. induction a as [| x a IH]; simpl; congruence. Qed.

Lemma cat_snoc (l : list string) (x : string) :
  cat (l ++ [x]) = (cat l ++ x)%string.
Proof.
  induction l as [| y l IH]; simpl.
  - apply append_nil_r.
  - now rewrite IH, append_assoc.
Qed.

(** A property of the object that the loop keeps, given that setting the
    path keeps it and recording a path keeps it. *)
Section LoopInvariant.

Variable P : t -> Prop.
Hypothesis P_path : forall self p, P self -> P (set_path self p).
Hypothesis P_visited :
  forall self p,
    P self -> Py.in_strs p (visited self) = false ->
    Nat.eqb (List.length (visited self)) 7 = false ->
    P (set_visited self (visited self ++ [p])).

Lemma while_loop_keeps (draws : list nat) :
  forall (self : t) (src snk : string),
    P self ->
    match reached (while_loop draws self src snk) with
    | Some self' => P self'
    | None => True
    end.
Proof.
  induction draws as [| c draws IH]; intros self src snk HP;
    rewrite while_loop_unfold.
  - destruct (_ && _); [destruct (possible self src) |]; exact HP.
  - destruct ((0 <? retry self) && negb (String.eqb src snk)) eqn:E1;
      cbn [andb]; [| exact HP].
    destruct (Nat.eqb (List.length (visited self)) 7) eqn:E7;
      cbn [negb]; [exact HP |].
    destruct (possible self src) as [| e0 seq]; [exact HP |].
    cbv zeta.
    destruct (String.eqb (ev (choice c (e0 :: seq) e0)) snk).
    + match goal with |- context [set_path ?x ""] => set (s1 := x) end.
      assert (H1 : P s1).
      { subst s1. cbn [set_path path visited].
        destruct (Py.in_strs _ (visited self)) eqn:Ein.
        - now apply P_path.
        - change (P (set_visited
                       (set_path self
                          (path self ++ ev (choice c (e0 :: seq) e0))%string)
                       (visited
                          (set_path self
                             (path self
                              ++ ev (choice c (e0 :: seq) e0))%string)
                        ++ [(path self
                             ++ ev (choice c (e0 :: seq) e0))%string]))).
          apply P_visited; [now apply P_path | exact Ein | exact E7]. }
      clearbody s1.
      destruct (_ || _); [exact I |].
      match goal with
      | |- context [while_loop draws ?s ?a ?b] =>
          specialize (IH s a b); destruct (while_loop draws s a b)
      end; cbn [reached] in *.
      * apply P_path, IH, P_path, P_path, H1.
      * exact I.
      * apply IH, P_path, P_path, H1.
    + match goal with
      | |- context [while_loop draws ?s ?a ?b] => apply (IH s a b)
      end.
      now apply P_path.
Qed.

Lemma path_finder_keeps_P (draws : list nat) (self : t) (src snk : string) :
  P self ->
  match reached (path_finder draws self src snk) with
  | Some self' => P self'
  | None => True
  end.
Proof.
  intros HP. unfold path_finder. destruct (_ || _); [exact I |].
  apply while_loop_keeps. now apply P_path.
Qed.

End LoopInvariant.

(** X1.  The search changes nothing but the path string and the list of
    recorded paths: in every state it reaches, returned or still running,
    the edge view with all its attributes, the source, the sink and the
    retry counter are those of the object it started from. *)
Theorem search_keeps_the_graph (draws : list nat) (self self' : t)
    (src snk : string) :
  reached (path_finder draws self src snk) = Some self' ->
  frame self' = frame self.
Proof.
  intros H.
  pose proof (path_finder_keeps_P (fun s => frame s = frame self)
                (fun s p Hs => Hs) (fun s p Hs _ _ => Hs)
                draws self src snk eq_refl) as HP.
  now rewrite H in HP.
Qed.

(** X2.  The search only ever appends to the list of recorded paths: in
    every state it reaches, the paths recorded before are still there, in
    their places, followed by the new ones. *)
Theorem search_only_appends (draws : list nat) (self self' : t)
    (src snk : string) :
  reached (path_finder draws self src snk) = Some self' ->
  exists new, visited self' = visited self ++ new.
Proof.
  intros H.
  pose proof (path_finder_keeps_P
                (fun s => exists new, visited s = visited self ++ new)
                (fun s p Hs => Hs)) as HP.
  specialize (HP (fun s p Hs _ _ =>
                    match Hs with
                    | ex_intro _ new E =>
                        ex_intro _ (new ++ [p])
                          (eq_trans (f_equal (fun v => v ++ [p]) E)
                                    (eq_sym (app_assoc _ _ _)))
                    end)).
  specialize (HP draws self src snk
                 (ex_intro _ [] (eq_sym (app_nil_r _)))).
  now rewrite H in HP.
Qed.

(** *** Recorded paths spell walks *)

Section Walks.

Variables (es : list Edge) (src0 snk : string) (v0 : list string).

Let good (p : string) : Prop :=
  In p v0 \/ exists l, steps es snk src0 l /\ p = cat (src0 :: l).

Lemma while_loop_walks (draws : list nat) :
  forall (self : t) (c : string) (pre : list string),
    frame self = (es, src0, snk, retry self) ->
    path self = cat (src0 :: pre) ->
    (forall l, steps es snk c l -> steps es snk src0 (pre ++ l)) ->
    (forall p, In p (visited self) -> good p) ->
    match reached (while_loop draws self c snk) with
    | Some self' => forall p, In p (visited self') -> good p
    | None => True
    end.
Proof.
  induction draws as [| d draws IH]; intros self c pre Hf Hpath Hcont Hv;
    rewrite while_loop_unfold.
  - destruct (_ && _); [destruct (possible self c) |]; exact Hv.
  - destruct ((0 <? retry self) && negb (String.eqb c snk)
              && negb (Nat.eqb (List.length (visited self)) 7));
      [| exact Hv].
    destruct (possible self c) as [| e0 seq] eqn:Ep; [exact Hv |].
    cbv zeta.
    injection Hf as He Hs Hk.
    assert (Hin : In (choice d (e0 :: seq) e0)
                     (filter (fun e => Py.str_in c (eu e)) es)).
    { rewrite <- He.
      change (filter (fun e => Py.str_in c (eu e)) (edges self))
        with (possible self c).
      rewrite Ep. apply choice_In. }
    set (test := choice d (e0 :: seq) e0) in *.
    destruct (String.eqb_spec (ev test) snk) as [Heq | Hne].
    + match goal with |- context [set_path ?x ""] => set (s1 := x) end.
      assert (H1 : (forall p, In p (visited s1) -> good p)
                   /\ edges s1 = es /\ source s1 = src0 /\ sink s1 = snk).
      { assert (Hnew : good (path self ++ ev test)%string).
        { right. exists (pre ++ [snk]). split.
          - apply Hcont. exact (steps_last es snk c test Hin Heq).
          - rewrite Hpath, Heq.
            change (src0 :: pre ++ [snk]) with ((src0 :: pre) ++ [snk]).
            now rewrite cat_snoc. }
        subst s1. cbn [set_path path visited].
        destruct (Py.in_strs _ (visited self));
          cbn [set_path set_visited visited edges source sink];
          repeat split; try assumption.
        intros p Hp. apply in_app_or in Hp.
        destruct Hp as [Hp | [<- | []]]; [now apply Hv | exact Hnew]. }
      clearbody s1. destruct H1 as (Hv1 & He1 & Hs1 & Hk1).
      cbn [set_path source sink path]. rewrite Hs1, Hk1.
      destruct (_ || _); [exact I |].
      change ("" ++ src0)%string with src0.
      assert (Hfr : frame (set_path (set_path s1 "") src0)
                    = (es, src0, snk,
                       retry (set_path (set_path s1 "") src0)))
        by (unfold frame; cbn [set_path edges source sink retry];
            congruence).
      specialize (IH (set_path (set_path s1 "") src0) src0 [] Hfr
                     (eq_sym (append_nil_r src0)) (fun l H => H) Hv1).
      destruct (while_loop draws _ src0 snk); cbn [reached] in *;
        [exact IH | exact I | exact IH].
    + apply (IH _ (ev test) (pre ++ [ev test])).
      * unfold frame. cbn [set_path edges source sink retry]. congruence.
      * cbn [set_path path]. rewrite Hpath.
        change (src0 :: pre ++ [ev test])
          with ((src0 :: pre) ++ [ev test]).
        now rewrite cat_snoc.
      * intros l Hl. rewrite <- app_assoc. apply Hcont.
        exact (steps_more es snk c test l Hin Hne Hl).
      * exact Hv.
Qed.

End Walks.

(** X3.  Every path the search records spells a walk of the graph: for an
    object whose path string is empty and a search started at its own
    source and sink, each recorded path that was not there before is the
    source label followed by the labels of the nodes a walk goes through,
    each move along an edge whose start contains the label of the node
    left, up to the first arrival at the sink. *)
Theorem recorded_paths_are_walks (draws : list nat) (self self' : t) :
  path self = "" ->
  reached (path_finder draws self (source self) (sink self)) = Some self' ->
  forall p,
    In p (visited self') ->
    In p (visited self)
    \/ exists l,
         steps (edges self) (sink self) (source self) l
         /\ p = cat (source self :: l).
Proof.
  intros Hp. unfold path_finder. destruct (_ || _); [discriminate |].
  rewrite Hp. change ("" ++ source self)%string with (source self).
  intros Hr.
  pose proof (while_loop_walks (edges self) (source self) (sink self)
                (visited self) draws (set_path self (source self))
                (source self) [] eq_refl
                (eq_sym (append_nil_r (source self)))
                (fun l H => H) (fun p H => or_introl H)) as H.
  now rewrite Hr in H.
Qed.

(** The labels of a walk: there is at least one, the last one is the
    sink, and the sink is none of the others. *)
Lemma steps_shape (es : list Edge) (snk c : string) (l : list string) :
  steps es snk c l ->
  exists pre, l = pre ++ [snk] /\ ~ In snk pre.
Proof.
  induction 1 as [c e Hin Heq | c e l Hin Hne _ IH].
  - exists []. split; [reflexivity | intros []].
  - destruct IH as (pre & -> & Hpre). exists (ev e :: pre).
    split; [reflexivity |]. intros [H | H]; [now apply Hne | now apply Hpre].
Qed.

(** *** Leaving through exit() *)

Lemma while_loop_no_exit (draws : list nat) :
  forall (self : t) (c snk : string),
    source self <> "" -> sink self <> "" ->
    while_loop draws self c snk <> Exited.
Proof.
  induction draws as [| d draws IH]; intros self c snk Hs Hk;
    rewrite while_loop_unfold.
  - destruct (_ && _); [destruct (possible self c) |]; discriminate.
  - destruct (_ && _); [| discriminate].
    destruct (possible self c) as [| e0 seq]; [discriminate |].
    cbv zeta.
    destruct (String.eqb (ev (choice d (e0 :: seq) e0)) snk).
    + match goal with |- context [set_path ?x ""] => set (s1 := x) end.
      assert (H1 : source s1 = source self /\ sink s1 = sink self)
        by (subst s1; destruct (Py.in_strs _ _); split; reflexivity).
      clearbody s1. destruct H1 as [E1 E2].
      cbn [set_path source sink path]. rewrite E1, E2.
      destruct (String.eqb_spec (source self) ""); [contradiction |].
      destruct (String.eqb_spec (sink self) ""); [contradiction |].
      cbn [orb].
      match goal with
      | |- context [while_loop draws ?s ?a ?b] =>
          specialize (IH s a b); destruct (while_loop draws s a b)
      end; try discriminate.
      exfalso. apply IH; cbn [set_path source sink]; congruence.
    + apply IH; assumption.
Qed.

(** X4.  The search leaves the program through exit() exactly for a
    missing end point: it exits at once when the source or the sink it is
    called with is empty, and when neither they nor the source and sink
    of the object are empty it never exits, whatever the draws. *)
Theorem exit_only_for_missing_end_point (draws : list nat) (self : t)
    (src snk : string) :
  (src = "" \/ snk = "" -> path_finder draws self src snk = Exited)
  /\ (src <> "" -> snk <> "" -> source self <> "" -> sink self <> "" ->
      path_finder draws self src snk <> Exited).
Proof.
  unfold path_finder. split.
  - intros [-> | ->]; [reflexivity |].
    now rewrite orb_true_r.
  - intros H1 H2 H3 H4.
    destruct (String.eqb_spec src ""); [contradiction |].
    destruct (String.eqb_spec snk ""); [contradiction |].
    cbn [orb]. now apply while_loop_no_exit.
Qed.

(** *** One-character labels *)

Lemma str_in_chr (a : ascii) (h : string) :
  String.length h = 1%nat ->
  Py.str_in (Py.chr a) h = String.eqb h (Py.chr a).
Proof.
  destruct h as [| b [| c h]]; try discriminate. intros _.
  unfold Py.chr. cbn [Py.str_in String.prefix String.eqb].
  rewrite (Ascii.eqb_sym b a).
  destruct (Ascii.eqb_spec a b) as [-> | Hne].
  - destruct (ascii_dec b b); [reflexivity | contradiction].
  - destruct (ascii_dec a b); [contradiction | reflexivity].
Qed.

(** X5.  When every edge starts at a node with a one-character label, the
    edges the search may take from a node with a one-character label are
    exactly the edges that start at that node, in the order of the edge
    view: the containment test of the code is then an equality test. *)
Theorem possible_is_out_edges (self : t) (a : ascii) :
  (forall e, In e (edges self) -> String.length (eu e) = 1%nat) ->
  possible self (Py.chr a)
  = filter (fun e => String.eqb (eu e) (Py.chr a)) (edges self).
Proof.
  unfold possible. induction (edges self) as [| e es IH]; intros H;
    [reflexivity |].
  cbn [filter]. rewrite (str_in_chr a (eu e)) by (apply H; now left).
  rewrite IH by (intros x Hx; apply H; now right). reflexivity.
Qed.

(** *** Why the search returns *)

Lemma while_loop_returns (draws : list nat) :
  forall (self self' : t) (c : string),
    0 < retry self -> source self <> sink self -> c <> sink self ->
    walk (edges self) (source self) c ->
    while_loop draws self c (sink self) = Returned self' ->
    List.length (visited self') = 7%nat
    \/ exists d, walk (edges self) (source self) d
                 /\ possible self d = [].
Proof.
  induction draws as [| x draws IH]; intros self self' c Hr Hss Hc Hw;
    rewrite while_loop_unfold;
    destruct (Z.ltb_spec 0 (retry self)); try lia;
    destruct (String.eqb_spec c (sink self)); try contradiction;
    cbn [andb negb];
    (destruct (Nat.eqb (List.length (visited self)) 7) eqn:E7; cbn [negb];
     [intros [= <-]; left; now apply Nat.eqb_eq |]).
  - destruct (possible self c) eqn:Ep; [| discriminate].
    intros [= <-]. right. now exists c.
  - destruct (possible self c) as [| e0 seq] eqn:Ep.
    { intros [= <-]. right. now exists c. }
    cbv zeta.
    assert (Hin : In (choice x (e0 :: seq) e0)
                     (filter (fun e => Py.str_in c (eu e)) (edges self))).
    { change (filter (fun e => Py.str_in c (eu e)) (edges self))
        with (possible self c).
      rewrite Ep. apply choice_In. }
    set (test := choice x (e0 :: seq) e0) in *.
    destruct (String.eqb_spec (ev test) (sink self)) as [Heq | Hne].
    + match goal with |- context [set_path ?y ""] => set (s1 := y) end.
      assert (H1 : frame s1 = frame self)
        by (subst s1; destruct (Py.in_strs _ _); reflexivity).
      clearbody s1. injection H1 as E1 E2 E3 E4.
      cbn [set_path source sink path]. rewrite E2, E3.
      destruct (_ || _); [discriminate |].
      specialize (IH (set_path (set_path s1 "") ("" ++ source self)%string)).
      cbn [set_path source sink retry edges] in IH.
      rewrite E1, E2, E3, E4 in IH.
      destruct (while_loop draws _ (source self) (sink self))
        as [s2 | | s2] eqn:Ew; try discriminate.
      intros [= <-]. cbn [set_path visited].
      destruct (IH s2 (source self) Hr Hss Hss (walk_here _ _) Ew)
        as [H7 | (d & Hd & Hp)]; [now left | right].
      exists d. split; [exact Hd |].
      unfold possible in *. cbn [edges set_path] in Hp. now rewrite <- E1.
    + intros Hret.
      destruct (IH (set_path self (path self ++ ev test)%string) self'
                   (ev test) Hr Hss Hne) as [H7 | (d & Hd & Hp)];
        [| exact Hret | now left | right; now exists d].
      cbn [set_path edges source].
      clear - Hw Hin. induction Hw as [a | a b e He Hw IHw].
      * exact (walk_step _ _ _ _ Hin (walk_here _ _)).
      * exact (walk_step _ _ _ _ He (IHw Hin)).
Qed.

(** X23.  A search with a positive retry counter, started at the source
    and sink of the object, these being different, returns for one of two
    reasons only: seven paths are recorded, or it stands on a node that it
    can walk to from the source and that no edge leaves. *)
Theorem search_returns_at_seven_or_dead_end (draws : list nat)
    (self self' : t) :
  0 < retry self -> source self <> sink self ->
  path_finder draws self (source self) (sink self) = Returned self' ->
  List.length (visited self') = 7%nat
  \/ exists d, walk (edges self) (source self) d /\ possible self d = [].
Proof.
  intros Hr Hss. unfold path_finder. destruct (_ || _); [discriminate |].
  intros H.
  exact (while_loop_returns draws
           (set_path self (path self ++ source self)%string) self'
           (source self) Hr Hss Hss (walk_here _ _) H).
Qed.

End SearchMore.

(* ================================================================== *)
(** ** Further properties of the update phase *)

Module FlowMore.
Import FordFulkerson SearchFacts FlowFacts Stores.

(** *** The pairs of a path *)

Lemma hops_until_cut (z : string) (cs : list string) :
  In z cs ->
  exists pre post,
    cs = pre ++ z :: post /\ ~ In z pre
    /\ map fst (hops_until z cs) = pre
    /\ map snd (hops_until z cs) = tl (pre ++ [z]).
Proof.
  induction cs as [| c cs IH]; intros Hin; [destruct Hin |].
  cbn [hops_until].
  destruct (String.eqb_spec c z) as [-> | Hne].
  - exists [], cs. repeat split. intros [].
  - destruct Hin as [Heq | Hin]; [contradiction |].
    destruct (IH Hin) as (pre & post & Hcs & Hpre & Hf & Hs).
    destruct cs as [| d cs']; [destruct Hin |].
    exists (c :: pre), post. cbn [map fst snd]. repeat split.
    + now rewrite Hcs.
    + intros [H | H]; [now apply Hne | now apply Hpre].
    + now rewrite Hf.
    + rewrite Hs. cbn [app tl].
      destruct pre as [| x pre']; cbn [app tl] in *; congruence.
Qed.

Lemma last_In {A : Type} (l : list A) (d : A) : l <> [] -> In (last l d) l.
Proof.
  induction l as [| x l IH]; intros H; [contradiction |].
  destruct l as [| y l']; [now left |].
  right. apply IH. discriminate.
Qed.

(** X6.  The pairs built from a recorded path cover the path from its
    first character up to the first occurrence of its last character, one
    pair per move, and nothing after that occurrence: the first
    components are the characters before it, the second components the
    same characters shifted by one and closed by the last character.  An
    empty path gives no pair. *)
Theorem hops_cover_path_up_to_last_character (p : string) :
  hops "" = []
  /\ (p <> "" ->
      exists pre post,
        chars p = pre ++ List.last (chars p) "" :: post
        /\ ~ In (List.last (chars p) "") pre
        /\ map fst (hops p) = pre
        /\ map snd (hops p) = tl (pre ++ [List.last (chars p) ""])).
Proof.
  split; [reflexivity |].
  intros Hp. unfold hops. apply hops_until_cut. apply last_In.
  destruct p; [contradiction | discriminate].
Qed.

(** *** The dictionary of paths *)

Lemma dict_set_keys {V : Type} (d : list (string * V)) (k : string) (v : V) :
  map fst (Py.dict_set d k v)
  = if Py.in_strs k (map fst d) then map fst d else map fst d ++ [k].
Proof.
  induction d as [| [k' v'] d IH]; [reflexivity |].
  cbn [Py.dict_set map fst Py.in_strs existsb].
  rewrite (String.eqb_sym k k').
  destruct (String.eqb k' k) eqn:E; cbn [map fst orb].
  - reflexivity.
  - rewrite IH. unfold Py.in_strs. destruct (existsb _ _); reflexivity.
Qed.

Lemma dict_set_values {V : Type} (P : string -> V -> Prop)
    (d : list (string * V)) (k : string) (v : V) :
  (forall k' v', In (k', v') d -> P k' v') -> P k v ->
  forall k' v', In (k', v') (Py.dict_set d k v) -> P k' v'.
Proof.
  induction d as [| [k0 v0] d IH]; intros Hd Hk k' v'.
  - intros [[= <- <-] | []]. exact Hk.
  - cbn [Py.dict_set]. destruct (String.eqb_spec k0 k) as [-> | Hne].
    + intros [[= <- <-] | H]; [exact Hk |]. apply Hd. now right.
    + intros [[= <- <-] | H]; [apply Hd; now left |].
      apply IH; try assumption. intros a b Hab. apply Hd. now right.
Qed.

Lemma build_visit_inv (visited : list string) :
  forall acc,
    NoDup (map fst acc) ->
    (forall k h, In (k, h) acc -> h = hops k) ->
    let d := fold_left
               (fun visit path => Py.dict_set visit path (hops path))
               visited acc in
    NoDup (map fst d)
    /\ (forall k, In k (map fst d) <-> In k (map fst acc) \/ In k visited)
    /\ (forall k h, In (k, h) d -> h = hops k).
Proof.
  induction visited as [| p l IH]; intros acc Hn Hv; cbn [fold_left].
  - repeat split; try assumption; try tauto. intros [H | []]. exact H.
  - destruct (IH (Py.dict_set acc p (hops p))) as (N & K & V).
    + rewrite dict_set_keys. destruct (Py.in_strs p (map fst acc)) eqn:E;
        [assumption |].
      apply NoDup_app; [assumption | repeat constructor; intros [] |].
      intros x Hx [<- | []]. apply in_strs_In in Hx. congruence.
    + apply dict_set_values; [assumption | reflexivity].
    + repeat split; try assumption.
      * intros H. apply K in H. rewrite dict_set_keys in H.
        destruct (Py.in_strs p (map fst acc)) eqn:E.
        -- destruct H; [now left | right; now right].
        -- destruct H as [H | H]; [| right; now right].
           apply in_app_or in H. destruct H as [H | [<- | []]];
             [now left | right; now left].
      * intros H. apply K. rewrite dict_set_keys.
        destruct (Py.in_strs p (map fst acc)) eqn:E.
        -- destruct H as [H | [<- | H]]; [now left | | now right].
           left. now apply in_strs_In.
        -- destruct H as [H | [<- | H]]; [| | now right];
             left; apply in_or_app; [now left | right; now left].
Qed.

(** X7.  The dictionary of the update phase has one entry for each
    different recorded path, whatever the number of times the path is in
    the list, and the entry of a path holds the pairs of that path. *)
Theorem visit_has_one_entry_per_path (visited : list string) :
  NoDup (map fst (build_visit visited))
  /\ (forall p, In p (map fst (build_visit visited)) <-> In p visited)
  /\ (forall p h, In (p, h) (build_visit visited) -> h = hops p).
Proof.
  destruct (build_visit_inv visited [] (NoDup_nil _)
              (fun k h (H : In (k, h) []) => match H with end))
    as (N & K & V).
  repeat split; try assumption.
  - intros H. apply K in H. destruct H as [[] | H]. exact H.
  - intros H. apply K. now right.
Qed.

(** *** What the update phase keeps *)

Lemma for_paths_shapes (visit : list (string * list (string * string))) :
  forall st, shapes (cells (fst (for_paths st visit))) = shapes (cells st).
Proof.
  induction visit as [| [p nodes] visit IH]; intros st; cbn [for_paths];
    [reflexivity |].
  destruct (body st nodes) as [err | st1] eqn:Eb; [reflexivity |].
  rewrite IH. apply body_inr in Eb. now destruct Eb as (_ & _ & _ & Hs).
Qed.

(** X8.  The update phase changes flows and residuals only: whatever was
    recorded and whether it prints or raises, it leaves the edge view with
    the same number of edges in the same order, each with its end points
    and its capacity. *)
Theorem update_phase_keeps_edges_and_capacities (self : t) :
  map (fun e => (eu e, ev e, capacity e)) (cells (fst (flow_network self)))
  = map (fun e => (eu e, ev e, capacity e)) (edges self).
Proof.
  unfold flow_network.
  pose proof (for_paths_shapes (build_visit (visited self))
                (mkLocals (edges self) [] None [])) as H.
  destruct (for_paths _ _) as [st err]. exact H.
Qed.

Lemma alter_at_twice {A : Type} (f g : A -> A) (i : nat) (xs : list A) :
  Py.alter_at g i (Py.alter_at f i xs)
  = Py.alter_at (fun x => g (f x)) i xs.
Proof.
  revert i. induction xs as [| x xs IH]; intros [| i]; simpl;
    try reflexivity.
  now rewrite IH.
Qed.

Lemma update_consistent (rc : Z) (r_edges : list nat) :
  forall st,
    Forall consistent (cells st) ->
    Forall consistent (cells (update st rc r_edges)).
Proof.
  induction r_edges as [| i r IH]; intros st H; cbn [update];
    [assumption |].
  destruct (nth_error (cells st) i) as [e |]; [| assumption].
  destruct (flow e =? capacity e); cbn [negb]; [assumption |].
  destruct (flow e + rc >? capacity e); [assumption |].
  apply IH. unfold write. cbn [cells]. rewrite alter_at_twice.
  apply alter_at_Forall; [assumption |].
  intros x Hx.
  pose proof (proj1 (Forall_forall _ _) H x (nth_error_In _ _ Hx)) as Hc.
  unfold consistent in *. simpl. lia.
Qed.

Lemma for_paths_consistent
    (visit : list (string * list (string * string))) :
  forall st,
    Forall consistent (cells st) ->
    Forall consistent (cells (fst (for_paths st visit))).
Proof.
  induction visit as [| [p nodes] visit IH]; intros st H; cbn [for_paths];
    [assumption |].
  destruct (body st nodes) as [err | st1] eqn:Eb; [assumption |].
  apply IH. revert Eb. unfold body.
  destruct (scan _ _ _ _ _) as [[[rc r] u] |]; [| discriminate].
  cbn [maxflow cells underscore history].
  destruct (Py.in_ints rc (maxflow st)); cbn [negb].
  - destruct u; [| discriminate]. now intros [= <-].
  - intros [= <-]. now apply update_consistent.
Qed.

(** X9.  When every edge starts with residual = capacity - flow, every
    edge still has residual = capacity - flow when the update phase ends,
    by printing or by raising: the two attributes are always changed
    together. *)
Theorem residual_stays_capacity_minus_flow (self : t) :
  Forall consistent (edges self) ->
  Forall consistent (cells (fst (flow_network self))).
Proof.
  intros H0. unfold flow_network.
  pose proof (for_paths_consistent (build_visit (visited self))
                (mkLocals (edges self) [] None []) H0) as H.
  destruct (for_paths _ _) as [st err]. exact H.
Qed.

(** *** The total printed *)

Lemma for_paths_amounts (visit : list (string * list (string * string))) :
  forall st st',
    for_paths st visit = (st', None) ->
    forall kv, In kv visit ->
               amount (cells st) (snd kv) = Some (amt (cells st) kv).
Proof.
  induction visit as [| [p nodes] visit IH]; intros st st' H kv Hin;
    [destruct Hin |].
  cbn [for_paths] in H.
  destruct (body st nodes) as [err | st1] eqn:Eb; [discriminate |].
  apply body_inr in Eb. destruct Eb as (rc & Ha & _ & Hs).
  destruct Hin as [<- | Hin].
  - unfold amt. cbn [snd]. now rewrite Ha.
  - pose proof (IH st1 st' H kv Hin) as H1.
    unfold amt in *.
    now rewrite <- (amount_shapes _ _ (snd kv) Hs).
Qed.

(** X10.  The total the update phase prints is the sum of the different
    amounts of the recorded paths: [maxflow] holds each amount once, an
    amount is in it exactly when it is the amount of a recorded path, and
    the total is the sum of the list.  Two paths with the same amount
    count once. *)
Theorem total_is_sum_of_distinct_amounts (self : t) (st : locals)
    (total : Z) :
  flow_network self = (st, Printed total) ->
  total = Py.sum (maxflow st)
  /\ NoDup (maxflow st)
  /\ forall x,
       In x (maxflow st)
       <-> exists p, In p (visited self)
                     /\ amount (edges self) (hops p) = Some x.
Proof.
  unfold flow_network.
  destruct (for_paths _ _) as [s [err |]] eqn:Ef; [discriminate |].
  intros [= <- <-].
  pose proof (for_paths_amounts _ _ _ Ef) as Ha.
  apply for_paths_maxflow in Ef. destruct Ef as [Hm _].
  cbn [cells maxflow] in *.
  destruct (note_fold (map (amt (edges self))
                           (build_visit (visited self))) []
              (NoDup_nil _)) as [Hn Hi].
  rewrite <- Hm in Hn, Hi.
  destruct (visit_has_one_entry_per_path (visited self)) as (_ & K & V).
  repeat split; try assumption.
  - intros Hx. apply Hi in Hx. destruct Hx as [[] | Hx].
    apply in_map_iff in Hx. destruct Hx as ([p h] & <- & Hin).
    exists p. split.
    + apply K. apply in_map_iff. now exists (p, h).
    + rewrite <- (V p h Hin). exact (Ha (p, h) Hin).
  - intros (p & Hp & Hx). apply Hi. right.
    apply K in Hp. apply in_map_iff in Hp.
    destruct Hp as ([p' h] & Hfst & Hin). cbn [fst] in Hfst. subst p'.
    apply in_map_iff. exists (p, h). split; [| exact Hin].
    pose proof (Ha (p, h) Hin) as H1. cbn [snd] in H1.
    rewrite (V p h Hin) in H1 at 1. congruence.
Qed.

Lemma scan_value (es : list Edge) (nodes : list (string * string)) :
  forall rc0 r0 u0 rc r u,
    scan es nodes rc0 r0 u0 = Some (rc, r, u) ->
    rc = rc0 \/ In rc (map capacity es).
Proof.
  induction nodes as [| node nodes IH]; intros rc0 r0 u0 rc r u;
    cbn [scan].
  - intros [= <- _ _]. now left.
  - destruct (Py.first_from (both_in node) es 0) as [[j x] |] eqn:Ef;
      [| discriminate].
    apply first_from_0, nth_error_In in Ef.
    assert (Hx : In (capacity x) (map capacity es)) by now apply in_map.
    destruct (rc0 =? 0); [| destruct (rc0 >? capacity x)]; intros H;
      apply IH in H; destruct H as [-> | H]; auto.
Qed.

Lemma sum_app (a b : list Z) : Py.sum (a ++ b) = Py.sum a + Py.sum b.
Proof. unfold Py.sum. induction a; simpl; lia. Qed.

Lemma sum_nonneg (c : list Z) : (forall y, In y c -> 0 <= y) -> 0 <= Py.sum c.
Proof.
  unfold Py.sum. induction c as [| y c IH]; intros H; simpl; [lia |].
  assert (0 <= y) by (apply H; now left).
  assert (0 <= fold_right Z.add 0 c) by (apply IH; intros; apply H; now right).
  lia.
Qed.

Lemma sum_distinct_le (l : list Z) :
  forall c,
    NoDup l -> (forall x, In x l -> x = 0 \/ In x c) ->
    (forall y, In y c -> 0 <= y) ->
    Py.sum l <= Py.sum c.
Proof.
  induction l as [| x l IH]; intros c Hn Hl Hc.
  - now apply sum_nonneg.
  - apply NoDup_cons_iff in Hn. destruct Hn as [Hx Hn].
    change (Py.sum (x :: l)) with (x + Py.sum l).
    destruct (Z.eq_dec x 0) as [-> | Hnz].
    + assert (Py.sum l <= Py.sum c); [| lia].
      apply IH; try assumption. intros y Hy. apply Hl. now right.
    + destruct (Hl x (or_introl eq_refl)) as [H0 | Hin]; [contradiction |].
      apply in_split in Hin. destruct Hin as (c1 & c2 & ->).
      rewrite sum_app. change (Py.sum (x :: c2)) with (x + Py.sum c2).
      assert (Py.sum l <= Py.sum (c1 ++ c2)); [| rewrite sum_app in *; lia].
      apply IH; try assumption.
      * intros y Hy. destruct (Hl y (or_intror Hy)) as [H0 | Hin];
          [now left | right].
        apply in_app_or in Hin. apply in_or_app.
        destruct Hin as [H | [<- | H]]; [now left | contradiction | now right].
      * intros y Hy. apply Hc. apply in_app_or in Hy. apply in_or_app.
        destruct Hy; [now left | right; now right].
Qed.

(** X11.  When no capacity is negative, the total the update phase prints
    lies between 0 and the sum of the capacities of all edges of the
    graph. *)
Theorem total_within_total_capacity (self : t) (st : locals) (total : Z) :
  caps_nonneg (edges self) ->
  flow_network self = (st, Printed total) ->
  0 <= total <= total_capacity (edges self).
Proof.
  intros Hc Hf.
  destruct (total_is_sum_of_distinct_amounts self st total Hf)
    as (-> & Hn & Hi).
  assert (Hcaps : forall y, In y (map capacity (edges self)) -> 0 <= y).
  { intros y Hy. apply in_map_iff in Hy. destruct Hy as (e & <- & He).
    exact (proj1 (Forall_forall _ _) Hc e He). }
  assert (Hel : forall x, In x (maxflow st) ->
                          x = 0 \/ In x (map capacity (edges self))).
  { intros x Hx. apply Hi in Hx. destruct Hx as (p & _ & Ha).
    unfold amount in Ha.
    destruct (scan (edges self) (hops p) 0 [] None)
      as [[[rc r] u] |] eqn:Es; [| discriminate].
    injection Ha as <-. exact (scan_value _ _ _ _ _ _ _ _ Es). }
  split.
  - apply sum_nonneg. intros x Hx.
    destruct (Hel x Hx) as [-> | H]; [lia | now apply Hcaps].
  - now apply sum_distinct_le.
Qed.

(** *** When the update phase raises *)

Lemma first_from_none {A : Type} (p : A -> bool) (xs : list A) :
  forall i,
    Py.first_from p xs i = None <-> (forall x, In x xs -> p x = false).
Proof.
  induction xs as [| y xs IH]; intros i; cbn [Py.first_from].
  - split; [intros _ x [] | reflexivity].
  - destruct (p y) eqn:Ey.
    + split; [discriminate |]. intros H.
      rewrite (H y (or_introl eq_refl)) in Ey. discriminate.
    + rewrite IH. split.
      * intros H x [<- | Hx]; [exact Ey | now apply H].
      * intros H x Hx. apply H. now right.
Qed.

Lemma scan_none (es : list Edge) (nodes : list (string * string)) :
  forall rc r u,
    scan es nodes rc r u = None
    <-> exists node, In node nodes /\ unjoined es node.
Proof.
  induction nodes as [| node nodes IH]; intros rc r u; cbn [scan].
  - split; [discriminate | intros (n & [] & _)].
  - destruct (Py.first_from (both_in node) es 0) as [[j x] |] eqn:Ef.
    + assert (Hj : ~ unjoined es node).
      { intros H.
        pose proof (proj2 (first_from_none (both_in node) es 0) H).
        congruence. }
      assert (Hrest : forall rc' r' u',
                 scan es nodes rc' r' u' = None
                 <-> exists n, In n (node :: nodes) /\ unjoined es n).
      { intros rc' r' u'. rewrite IH. split.
        - intros (n & Hn & Hu). exists n. split; [now right | exact Hu].
        - intros (n & [<- | Hn] & Hu); [contradiction |]. now exists n. }
      destruct (rc =? 0); [| destruct (rc >? capacity x)]; apply Hrest.
    + split; [| reflexivity]. intros _. exists node.
      split; [now left |].
      exact (proj1 (first_from_none (both_in node) es 0) Ef).
Qed.

Lemma found_not_unjoined (es : list Edge) (node : string * string) :
  Py.first_from (both_in node) es 0 <> None -> ~ unjoined es node.
Proof.
  intros H Hu. apply H.
  exact (proj2 (first_from_none (both_in node) es 0) Hu).
Qed.

Lemma unjoined_shapes (es es' : list Edge) (node : string * string) :
  shapes es = shapes es' -> unjoined es node -> unjoined es' node.
Proof.
  intros Hs H.
  pose proof (first_from_shapes node es es' 0 Hs) as Hf.
  rewrite (proj2 (first_from_none (both_in node) es 0) H) in Hf.
  refine (proj1 (first_from_none (both_in node) es' 0) _).
  destruct (Py.first_from (both_in node) es' 0); [contradiction | reflexivity].
Qed.

Lemma for_paths_index_error
    (visit : list (string * list (string * string))) :
  forall st,
    snd (for_paths st visit) = Some IndexError ->
    exists kv node,
      In kv visit /\ In node (snd kv) /\ unjoined (cells st) node.
Proof.
  induction visit as [| [p nodes] visit IH]; intros st; cbn [for_paths];
    [discriminate |].
  destruct (body st nodes) as [err | st1] eqn:Eb.
  - cbn [snd]. intros [= ->]. revert Eb. unfold body.
    destruct (scan (cells st) nodes 0 [] (underscore st))
      as [[[rc r] u] |] eqn:Es.
    + cbn [maxflow cells underscore history].
      destruct (Py.in_ints rc (maxflow st)); cbn [negb]; [| discriminate].
      destruct u; discriminate.
    + intros _. apply scan_none in Es. destruct Es as (node & Hn & Hu).
      exists (p, nodes), node. repeat split; [now left | assumption ..].
  - intros H. apply IH in H. destruct H as (kv & node & Hkv & Hn & Hu).
    apply body_inr in Eb. destruct Eb as (_ & _ & _ & Hs).
    exists kv, node. repeat split; [now right | assumption |].
    exact (unjoined_shapes _ _ node Hs Hu).
Qed.

(** X12.  Processing a path raises IndexError exactly when two
    consecutive nodes of the path are joined by no edge of the graph, in
    either direction; and when the update phase ends with IndexError,
    some recorded path has such a pair. *)
Theorem index_error_means_missing_edge :
  (forall (st : locals) (nodes : list (string * string)),
      body st nodes = inl IndexError
      <-> exists node, In node nodes /\ unjoined (cells st) node)
  /\ (forall self : t,
         snd (flow_network self) = Raised IndexError ->
         exists p node,
           In p (visited self) /\ In node (hops p)
           /\ unjoined (edges self) node).
Proof.
  split.
  - intros st nodes. rewrite <- (scan_none (cells st) nodes 0 []
                                          (underscore st)).
    unfold body.
    destruct (scan (cells st) nodes 0 [] (underscore st))
      as [[[rc r] u] |].
    + cbn [maxflow cells underscore history].
      split; [| discriminate].
      destruct (Py.in_ints rc (maxflow st)); cbn [negb]; [| discriminate].
      destruct u; discriminate.
    + split; reflexivity.
  - intros self. unfold flow_network.
    pose proof (for_paths_index_error (build_visit (visited self))
                  (mkLocals (edges self) [] None [])) as H.
    destruct (for_paths _ _) as [st [err |]]; cbn [snd] in *;
      [| discriminate].
    intros [= ->]. destruct (H eq_refl) as ([p h] & node & Hkv & Hn & Hu).
    destruct (visit_has_one_entry_per_path (visited self)) as (_ & K & V).
    exists p, node. cbn [snd] in Hn. rewrite (V p h Hkv) in Hn.
    repeat split; try assumption.
    apply K. apply in_map_iff. now exists (p, h).
Qed.

Lemma scan_uniform (es : list Edge) (c : Z)
    (nodes : list (string * string)) :
  (forall e, In e es -> capacity e = c) ->
  forall rc0 r0 u0 rc r u,
    rc0 = 0 \/ rc0 = c ->
    scan es nodes rc0 r0 u0 = Some (rc, r, u) ->
    u = u0 /\ (rc = 0 \/ rc = c) /\ (nodes <> [] -> rc = c).
Proof.
  intros Hc. induction nodes as [| node nodes IH];
    intros rc0 r0 u0 rc r u H0; cbn [scan].
  - intros [= <- _ <-]. repeat split; [assumption | contradiction].
  - destruct (Py.first_from (both_in node) es 0) as [[j x] |] eqn:Ef;
      [| discriminate].
    apply first_from_0, nth_error_In, Hc in Ef. rewrite Ef.
    assert (Hnext : forall r' ,
               scan es nodes c r' u0 = Some (rc, r, u) ->
               u = u0 /\ (rc = 0 \/ rc = c)
               /\ (node :: nodes <> [] -> rc = c)).
    { intros r' H. destruct nodes as [| n nodes'].
      - cbn [scan] in H. injection H as <- _ <-. auto.
      - apply IH in H; [| now right].
        destruct H as (Hu & Hr & Hn). repeat split; try assumption.
        intros _. apply Hn. discriminate. }
    destruct (Z.eqb_spec rc0 0) as [-> | Hnz]; [apply Hnext |].
    destruct H0 as [-> | ->]; [contradiction |].
    destruct (Z.gtb_spec c c); [lia |]. apply Hnext.
Qed.

Lemma uniform_shapes (es es' : list Edge) (c : Z) :
  shapes es' = shapes es ->
  (forall e, In e es -> capacity e = c) ->
  forall e, In e es' -> capacity e = c.
Proof.
  intros Hs Hc e He.
  apply (in_map shape) in He. unfold shapes in Hs. rewrite Hs in He.
  apply in_map_iff in He. destruct He as (x & Hx & Hin).
  rewrite <- (Hc x Hin). unfold shape in Hx. congruence.
Qed.

(** X13.  On a graph whose edges all have the same capacity [c], take a
    path with at least one pair, every pair joined by an edge.  In a
    state where [c] is already in [maxflow] and the variable [_] is not
    assigned, as after a first processed path, processing the path
    raises UnboundLocalError: its amount is [c] again and the message of
    line 193 reads [_].  And when processing the path does not raise, it
    leaves [_] as it was, [c] in [maxflow] and every capacity [c]: no
    path ever assigns [_] there. *)
Theorem equal_capacities_raise_unbound_local (st : locals) (c : Z)
    (nodes : list (string * string)) :
  (forall e, In e (cells st) -> capacity e = c) ->
  nodes <> [] ->
  (forall node, In node nodes -> ~ unjoined (cells st) node) ->
  (In c (maxflow st) -> underscore st = None ->
   body st nodes = inl UnboundLocalError)
  /\ (forall st',
         body st nodes = inr st' ->
         underscore st' = underscore st
         /\ In c (maxflow st')
         /\ forall e, In e (cells st') -> capacity e = c).
Proof.
  intros Hc Hne Hj.
  assert (Hscan : exists r,
             scan (cells st) nodes 0 [] (underscore st)
             = Some (c, r, underscore st)).
  { destruct (scan (cells st) nodes 0 [] (underscore st))
      as [[[rc r] u'] |] eqn:Es.
    - destruct (scan_uniform (cells st) c nodes Hc 0 [] (underscore st)
                  rc r u' (or_introl eq_refl) Es) as (-> & _ & Hrc).
      rewrite (Hrc Hne). now exists r.
    - apply scan_none in Es. destruct Es as (node & Hn & Hu).
      exfalso. exact (Hj node Hn Hu). }
  destruct Hscan as (r & Es). split.
  - intros Hin Hu. unfold body. rewrite Es.
    cbn [maxflow cells underscore history].
    rewrite (proj2 (in_ints_In c (maxflow st)) Hin). cbn [negb].
    now rewrite Hu.
  - intros st' Hb.
    pose proof (body_inr _ _ _ Hb) as (_ & _ & _ & Hs).
    split; [| split; [| exact (uniform_shapes _ _ c Hs Hc)]];
      revert Hb; unfold body; rewrite Es;
      cbn [maxflow cells underscore history];
      destruct (Py.in_ints c (maxflow st)) eqn:Ein; cbn [negb].
    + destruct (underscore st) eqn:Eu; [| discriminate].
      now intros [= <-].
    + intros [= <-]. now rewrite update_underscore.
    + destruct (underscore st) eqn:Eu; [| discriminate].
      intros [= <-]. cbn [maxflow].
      exact (proj1 (in_ints_In c (maxflow st)) Ein).
    + intros [= <-]. rewrite update_maxflow. cbn [maxflow].
      apply in_or_app. right. now left.
Qed.

(** *** Zero capacities *)

Lemma scan_app (es : list Edge) (n1 n2 : list (string * string)) :
  forall rc r u,
    scan es (n1 ++ n2) rc r u
    = match scan es n1 rc r u with
      | Some (rc1, r1, u1) => scan es n2 rc1 r1 u1
      | None => None
      end.
Proof.
  induction n1 as [| node n1 IH]; intros rc r u; cbn [app scan];
    [reflexivity |].
  destruct (Py.first_from (both_in node) es 0) as [[j x] |];
    [| reflexivity].
  destruct (rc =? 0); [| destruct (rc >? capacity x)]; apply IH.
Qed.

Lemma scan_amount_any (es : list Edge) (nodes : list (string * string)) :
  forall rc r u r' u',
    match scan es nodes rc r u, scan es nodes rc r' u' with
    | Some (a, _, _), Some (a', _, _) => a = a'
    | None, None => True
    | _, _ => False
    end.
Proof.
  induction nodes as [| node nodes IH]; intros rc r u r' u'; cbn [scan];
    [reflexivity |].
  destruct (Py.first_from (both_in node) es 0) as [[j x] |]; [| exact I].
  destruct (rc =? 0); [| destruct (rc >? capacity x)]; apply IH.
Qed.

(** X14.  An edge of capacity 0 makes the scan of a path forget what it
    has seen: when no capacity is negative and the pair [z] of a path is
    joined by an edge of capacity 0, the amount of the path is the amount
    of the part of the path after [z], not the smallest capacity on the
    path. *)
Theorem zero_capacity_resets_amount (es : list Edge)
    (n1 n2 : list (string * string)) (z : string * string) (i : nat)
    (e : Edge) :
  caps_nonneg es ->
  amount es n1 <> None ->
  Py.first_from (both_in z) es 0 = Some (i, e) -> capacity e = 0 ->
  amount es (n1 ++ z :: n2) = amount es n2.
Proof.
  intros Hc H1 Hz He. unfold amount in *. rewrite scan_app.
  destruct (scan es n1 0 [] None) as [[[rc1 r1] u1] |] eqn:E1;
    [| contradiction].
  assert (H0 : 0 <= rc1)
    by exact (scan_nonneg es n1 Hc 0 [] None rc1 r1 u1 (Z.le_refl 0) E1).
  cbn [scan]. rewrite Hz, He.
  assert (Hn : forall r u,
             match scan es n2 0 r u with
             | Some (rc, _, _) => Some rc
             | None => None
             end
             = match scan es n2 0 [] None with
               | Some (rc, _, _) => Some rc
               | None => None
               end).
  { intros r u. pose proof (scan_amount_any es n2 0 r u [] None) as H.
    destruct (scan es n2 0 r u) as [[[a ?] ?] |],
             (scan es n2 0 [] None) as [[[a' ?] ?] |];
      try contradiction; congruence. }
  destruct (Z.eqb_spec rc1 0); [apply Hn |].
  destruct (Z.gtb_spec rc1 0); [apply Hn | lia].
Qed.

(** *** Where the update of a path stops *)

Lemma firstn_sub {A : Type} (k : nat) (l : list A) (x : A) :
  In x (firstn k l) -> In x l.
Proof.
  revert l. induction k as [| k IH]; intros [| y l]; cbn [firstn];
    try contradiction.
  intros [<- | H]; [now left | right; now apply IH].
Qed.

(** X15.  The update of a path changes a first part of the path: when no
    edge occurs twice on the path and every position is one of the edge
    view, there is a number [k] such that the first [k] edges of the path
    have their flow raised and their residual lowered by the amount, no
    other edge is changed, and either [k] is the whole path or the edge
    after the first [k] was full or would have exceeded its capacity. *)
Theorem update_changes_a_first_part (rc : Z) (r_edges : list nat) :
  forall st,
    NoDup r_edges ->
    (forall i, In i r_edges -> nth_error (cells st) i <> None) ->
    exists k,
      (forall i e, In i (firstn k r_edges) ->
                   nth_error (cells st) i = Some e ->
                   nth_error (cells (update st rc r_edges)) i
                   = Some (pushed rc e))
      /\ (forall j, ~ In j (firstn k r_edges) ->
                    nth_error (cells (update st rc r_edges)) j
                    = nth_error (cells st) j)
      /\ (k = List.length r_edges
          \/ exists i e,
               nth_error r_edges k = Some i
               /\ nth_error (cells st) i = Some e
               /\ (flow e = capacity e \/ flow e + rc > capacity e)).
Proof.
  induction r_edges as [| i r IH]; intros st Hn Hv.
  - exists 0%nat. repeat split; [intros i e [] | now left].
  - apply NoDup_cons_iff in Hn. destruct Hn as [Hi Hn].
    destruct (nth_error (cells st) i) as [e |] eqn:En;
      [| exfalso; apply (Hv i); [now left | exact En]].
    assert (Hstop : flow e = capacity e \/ flow e + rc > capacity e ->
                    exists k : nat,
                      (forall i0 e0, In i0 (firstn k (i :: r)) ->
                         nth_error (cells st) i0 = Some e0 ->
                         nth_error (cells (update st rc (i :: r))) i0
                         = Some (pushed rc e0))
                      /\ (forall j, ~ In j (firstn k (i :: r)) ->
                            nth_error (cells (update st rc (i :: r))) j
                            = nth_error (cells st) j)
                      /\ (k = List.length (i :: r)
                          \/ exists i0 e0,
                               nth_error (i :: r) k = Some i0
                               /\ nth_error (cells st) i0 = Some e0
                               /\ (flow e0 = capacity e0
                                   \/ flow e0 + rc > capacity e0))).
    { intros Hs. exists 0%nat.
      rewrite (PathUpdate.update_first_stops st rc i r e En Hs).
      repeat split; [intros i0 e0 [] |]. right. now exists i, e. }
    destruct (Z.eq_dec (flow e) (capacity e)) as [Heq | Hne];
      [apply Hstop; now left |].
    destruct (Z_gt_le_dec (flow e + rc) (capacity e)) as [Hgt | Hle];
      [apply Hstop; now right |].
    clear Hstop. cbn [update]. rewrite En.
    destruct (Z.eqb_spec (flow e) (capacity e)); [contradiction |].
    cbn [negb].
    destruct (Z.gtb_spec (flow e + rc) (capacity e)); [lia |].
    set (st2 := write (write st i (add_flow rc)) i (sub_residual rc)).
    assert (Hsame : nth_error (cells st2) i = Some (pushed rc e)).
    { subst st2. unfold write, pushed. cbn [cells].
      apply alter_at_same. now apply alter_at_same. }
    assert (Hother : forall j, j <> i ->
                               nth_error (cells st2) j
                               = nth_error (cells st) j).
    { intros j Hj. subst st2. unfold write. cbn [cells].
      rewrite !alter_at_other by congruence. reflexivity. }
    destruct (IH st2 Hn) as (k & Ha & Hb & Hk).
    { intros j Hj. rewrite Hother by (intros ->; contradiction).
      apply Hv. now right. }
    exists (S k). cbn [firstn]. repeat split.
    + intros j x [<- | Hj] Hx.
      * rewrite Hb; [congruence |].
        intros Hjk. apply Hi. exact (firstn_sub _ _ _ Hjk).
      * assert (j <> i)
          by (intros ->; apply Hi; exact (firstn_sub _ _ _ Hj)).
        apply Ha; [assumption |]. now rewrite Hother.
    + intros j Hj. rewrite Hb by (intros Hjk; apply Hj; now right).
      apply Hother. intros ->. apply Hj. now left.
    + destruct Hk as [-> | (j & x & Hj & Hx & Hs)]; [now left | right].
      exists j, x. repeat split; try assumption.
      rewrite <- Hother; [exact Hx |].
      intros ->. apply Hi. exact (nth_error_In _ _ Hj).
Qed.

(** *** Edges off the recorded paths *)

Lemma update_untouched (rc : Z) (r_edges : list nat) :
  forall st j,
    ~ In j r_edges ->
    nth_error (cells (update st rc r_edges)) j = nth_error (cells st) j.
Proof.
  induction r_edges as [| i r IH]; intros st j Hj; cbn [update];
    [reflexivity |].
  destruct (nth_error (cells st) i) as [e |]; [| reflexivity].
  destruct (flow e =? capacity e); cbn [negb]; [reflexivity |].
  destruct (flow e + rc >? capacity e); [reflexivity |].
  rewrite IH by (intros H; apply Hj; now right).
  unfold write. cbn [cells].
  rewrite !alter_at_other; [reflexivity | |];
    intros ->; apply Hj; now left.
Qed.

Lemma scan_positions (es : list Edge) (nodes : list (string * string)) :
  forall rc0 r0 u0 rc r u,
    scan es nodes rc0 r0 u0 = Some (rc, r, u) ->
    forall i, In i r -> In i r0 \/ on_path es nodes i.
Proof.
  induction nodes as [| node nodes IH]; intros rc0 r0 u0 rc r u;
    cbn [scan].
  - intros [= _ <- _] i Hi. now left.
  - destruct (Py.first_from (both_in node) es 0) as [[j x] |] eqn:Ef;
      [| discriminate].
    assert (Hnext : forall rc1 u1,
               scan es nodes rc1 (r0 ++ [j]) u1 = Some (rc, r, u) ->
               forall i, In i r ->
                         In i r0 \/ on_path es (node :: nodes) i).
    { intros rc1 u1 H i Hi.
      destruct (IH _ _ _ _ _ _ H i Hi) as [H0 | (n & y & Hn & Hy)].
      - apply in_app_or in H0. destruct H0 as [H0 | [<- | []]];
          [now left | right].
        exists node, x. split; [now left | exact Ef].
      - right. exists n, y. split; [now right | exact Hy]. }
    destruct (rc0 =? 0); [| destruct (rc0 >? capacity x)]; apply Hnext.
Qed.

Lemma on_path_shapes (es es' : list Edge) (nodes : list (string * string))
    (j : nat) :
  shapes es = shapes es' -> on_path es nodes j -> on_path es' nodes j.
Proof.
  intros Hs (node & x & Hn & Hx).
  pose proof (first_from_shapes node es es' 0 Hs) as H. rewrite Hx in H.
  destruct (Py.first_from (both_in node) es' 0) as [[j' x'] |] eqn:E;
    [| contradiction].
  destruct H as [<- _]. now exists node, x'.
Qed.

Lemma for_paths_untouched (es0 : list Edge) (j : nat)
    (visit : list (string * list (string * string))) :
  (forall kv, In kv visit -> ~ on_path es0 (snd kv) j) ->
  forall st,
    shapes (cells st) = shapes es0 ->
    nth_error (cells (fst (for_paths st visit))) j
    = nth_error (cells st) j.
Proof.
  induction visit as [| [p nodes] visit IH]; intros Hv st Hs;
    cbn [for_paths]; [reflexivity |].
  destruct (body st nodes) as [err | st1] eqn:Eb; [reflexivity |].
  pose proof (body_inr _ _ _ Eb) as (_ & _ & _ & Hs1).
  rewrite IH; [| intros kv Hkv; apply Hv; now right | congruence].
  revert Eb. unfold body.
  destruct (scan (cells st) nodes 0 [] (underscore st))
    as [[[rc r] u] |] eqn:Es; [| discriminate].
  cbn [maxflow cells underscore history].
  destruct (Py.in_ints rc (maxflow st)); cbn [negb].
  - destruct u; [| discriminate]. now intros [= <-].
  - intros [= <-]. rewrite update_untouched; [reflexivity |].
    intros Hj.
    destruct (scan_positions _ _ _ _ _ _ _ _ Es j Hj) as [[] | Hon].
    apply (Hv (p, nodes)); [now left |]. cbn [snd].
    exact (on_path_shapes _ _ _ _ Hs Hon).
Qed.

(** X24.  The update phase touches only edges on recorded paths: an edge
    of the view that is the edge taken for no pair of any recorded path
    has the same flow and the same residual when the phase ends as when
    it started. *)
Theorem edges_off_the_paths_are_untouched (self : t) (j : nat) :
  (forall p, In p (visited self) -> ~ on_path (edges self) (hops p) j) ->
  nth_error (cells (fst (flow_network self))) j
  = nth_error (edges self) j.
Proof.
  intros Hv. unfold flow_network.
  pose proof (for_paths_untouched (edges self) j
                (build_visit (visited self))) as H.
  destruct (visit_has_one_entry_per_path (visited self)) as (_ & K & V).
  specialize (H (fun kv Hkv =>
                   match kv as k return In k _ -> ~ on_path _ (snd k) j with
                   | (p, h) => fun Hin =>
                       eq_ind_r (fun x => ~ on_path (edges self) x j)
                         (Hv p (proj1 (K p)
                                  (in_map fst _ _ Hin)))
                         (V p h Hin)
                   end Hkv)
                (mkLocals (edges self) [] None []) eq_refl).
  destruct (for_paths _ _) as [st err]. exact H.
Qed.

(** *** Which edge is looked up for a pair *)

Lemma both_in_swap (x y : string) (e : Edge) :
  both_in (x, y) e = both_in (y, x) e.
Proof. unfold both_in. cbn [fst snd]. apply andb_comm. Qed.

Lemma first_from_ext {A : Type} (p q : A -> bool) (xs : list A) :
  (forall x, p x = q x) ->
  forall i, Py.first_from p xs i = Py.first_from q xs i.
Proof.
  intros H. induction xs as [| x xs IH]; intros i; cbn [Py.first_from];
    [reflexivity |].
  rewrite (H x), IH. reflexivity.
Qed.

Lemma both_in_ends (x y : string) (e : Edge) :
  x <> y -> both_in (x, y) e = true ->
  (eu e = x /\ ev e = y) \/ (eu e = y /\ ev e = x).
Proof.
  unfold both_in. cbn [fst snd]. intros Hxy H.
  apply andb_true_iff in H. destruct H as [H1 H2].
  apply orb_true_iff in H1. apply orb_true_iff in H2.
  destruct H1 as [H1 | H1], H2 as [H2 | H2];
    apply String.eqb_eq in H1; apply String.eqb_eq in H2;
    try (exfalso; congruence); auto.
Qed.

(** On [both_ways] the path SAT goes along S->A and A->T, of capacities
    10 and 5; the edge looked up for its first pair is A->S, and the
    amount of the path is the capacity 1 of that edge. *)
Lemma reverse_edge_is_looked_up :
  arcs both_ways (hops "SAT")
  = Some [mkEdge "A" "S" 1 0 1; mkEdge "A" "T" 5 0 5]
  /\ amount both_ways (hops "SAT") = Some 1.
Proof. split; reflexivity. Qed.

(** X26.  The edge looked up for a pair of consecutive nodes does not
    depend on the direction: the pair (x, y) and the pair (y, x) get the
    same edge, which for different nodes runs from x to y or from y to
    x.  When the two nodes of every pair of a path differ and no edge of
    the graph runs against a pair, the edges looked up for the path are
    the edges the path goes along, in order. *)
Theorem lookup_ignores_direction (es : list Edge)
    (nodes : list (string * string)) (a : list Edge) :
  (forall x y,
      Py.first_from (both_in (x, y)) es 0
      = Py.first_from (both_in (y, x)) es 0)
  /\ (forall x y i e,
         x <> y -> Py.first_from (both_in (x, y)) es 0 = Some (i, e) ->
         (eu e = x /\ ev e = y) \/ (eu e = y /\ ev e = x))
  /\ ((forall node, In node nodes -> fst node <> snd node) ->
      (forall node e, In node nodes -> In e es ->
                      ~ (eu e = snd node /\ ev e = fst node)) ->
      arcs es nodes = Some a ->
      Forall2 (fun node e => eu e = fst node /\ ev e = snd node) nodes a).
Proof.
  split; [| split].
  - intros x y. apply first_from_ext. intros e. apply both_in_swap.
  - intros x y i e Hxy H. apply first_from_spec in H.
    destruct H as (_ & _ & H). exact (both_in_ends x y e Hxy H).
  - revert a. induction nodes as [| [x y] nodes IH]; intros a Hd Hr;
      cbn [arcs].
    + intros [= <-]. constructor.
    + destruct (Py.first_from (both_in (x, y)) es 0) as [[i e] |] eqn:Ef;
        [| discriminate].
      destruct (arcs es nodes) as [a' |]; [| discriminate].
      cbn [option_map]. intros [= <-]. constructor.
      * pose proof (first_from_spec _ _ _ _ _ Ef) as (_ & Hn & Hb).
        rewrite Nat.sub_0_r in Hn. apply nth_error_In in Hn.
        destruct (both_in_ends x y e
                    (Hd (x, y) (or_introl eq_refl)) Hb) as [H | H];
          [exact H |].
        exfalso. exact (Hr (x, y) e (or_introl eq_refl) Hn H).
      * apply IH; [| | reflexivity].
        -- intros node Hn. apply Hd. now right.
        -- intros node e' Hn. apply Hr. now right.
Qed.

End FlowMore.

(* ================================================================== *)
(** ** Updates that are not cut short *)

Module WholeUpdate.
Import FordFulkerson FlowFacts FlowMore.

Lemma sum_cons (x : Z) (l : list Z) : Py.sum (x :: l) = x + Py.sum l.
Proof. reflexivity. Qed.

Lemma inflow_pushed (rc : Z) (v : string) (es : list Edge) :
  forall i e,
    nth_error es i = Some e ->
    inflow (Py.alter_at (pushed rc) i es) v
    = inflow es v + when_eq (ev e) v rc.
Proof.
  unfold inflow, when_eq.
  induction es as [| x es IH]; intros [| i] e; cbn [nth_error];
    try discriminate.
  - intros [= ->]. cbn [Py.alter_at filter pushed sub_residual add_flow ev].
    destruct (String.eqb (ev e) v); cbn [map]; rewrite ?sum_cons;
      try change (flow (pushed rc e)) with (flow e + rc); lia.
  - intros H. cbn [Py.alter_at filter].
    destruct (String.eqb (ev x) v); cbn [map]; rewrite ?sum_cons;
      rewrite (IH i e H); lia.
Qed.

Lemma outflow_pushed (rc : Z) (v : string) (es : list Edge) :
  forall i e,
    nth_error es i = Some e ->
    outflow (Py.alter_at (pushed rc) i es) v
    = outflow es v + when_eq (eu e) v rc.
Proof.
  unfold outflow, when_eq.
  induction es as [| x es IH]; intros [| i] e; cbn [nth_error];
    try discriminate.
  - intros [= ->]. cbn [Py.alter_at filter pushed sub_residual add_flow eu].
    destruct (String.eqb (eu e) v); cbn [map]; rewrite ?sum_cons;
      try change (flow (pushed rc e)) with (flow e + rc); lia.
  - intros H. cbn [Py.alter_at filter].
    destruct (String.eqb (eu x) v); cbn [map]; rewrite ?sum_cons;
      rewrite (IH i e H); lia.
Qed.

Lemma Forall2_in_impl {A B : Type} (P Q : A -> B -> Prop)
    (l : list A) (m : list B) :
  Forall2 P l m ->
  (forall x y, In x l -> P x y -> Q x y) ->
  Forall2 Q l m.
Proof.
  induction 1 as [| x y l m Hxy _ IH]; intros Himp; constructor.
  - apply Himp; [now left | exact Hxy].
  - apply IH. intros x' y' Hin. apply Himp. now right.
Qed.

(** The change of [net] at [v] when [rc] is pushed along each edge of
    [a]. *)
Lemma update_net (rc : Z) (v : string) (r : list nat) (a : list Edge) :
  forall st,
    NoDup r ->
    Forall2 (fun i e => nth_error (cells st) i = Some e) r a ->
    (forall e, In e a -> flow e <> capacity e /\ flow e + rc <= capacity e) ->
    net (cells (update st rc r)) v
    = net (cells st) v
      + Py.sum (map (fun e => when_eq (ev e) v rc - when_eq (eu e) v rc) a).
Proof.
  revert a. induction r as [| i r IH]; intros a st Hn Hf Hok;
    inversion Hf as [| i' e r' a' Hi Hf' ]; subst.
  - cbn [update map]. change (Py.sum []) with 0. lia.
  - apply NoDup_cons_iff in Hn. destruct Hn as [Hi' Hn].
    destruct (Hok e (or_introl eq_refl)) as [Hne Hle].
    cbn [update]. rewrite Hi.
    destruct (Z.eqb_spec (flow e) (capacity e)) as [| _];
      [contradiction |].
    cbn [negb].
    destruct (Z.gtb_spec (flow e + rc) (capacity e)) as [| _]; [lia |].
    set (st2 := write (write st i (add_flow rc)) i (sub_residual rc)).
    assert (Ec : cells st2 = Py.alter_at (pushed rc) i (cells st)).
    { unfold st2, write. cbn [cells]. now rewrite alter_at_twice. }
    rewrite (IH a' st2 Hn).
    + rewrite Ec. unfold net.
      rewrite (inflow_pushed rc v _ i e Hi),
        (outflow_pushed rc v _ i e Hi).
      cbn [map]. rewrite sum_cons. lia.
    + apply (Forall2_in_impl _ _ _ _ Hf').
      intros j x Hj Hx. rewrite Ec.
      rewrite alter_at_other; [exact Hx |].
      intros ->. contradiction.
    + intros x Hx. apply Hok. now right.
Qed.

Lemma last_default {A : Type} (x : A) (l : list A) (d d' : A) :
  List.last (x :: l) d = List.last (x :: l) d'.
Proof.
  revert x. induction l as [| y l IH]; intros x; [reflexivity |].
  change (List.last (y :: l) d = List.last (y :: l) d'). apply IH.
Qed.

Lemma chained_sum (rc : Z) (v : string) (a : list Edge) :
  forall e1,
    chained (e1 :: a) ->
    Py.sum (map (fun e => when_eq (ev e) v rc - when_eq (eu e) v rc)
              (e1 :: a))
    = when_eq (ev (List.last (e1 :: a) e1)) v rc - when_eq (eu e1) v rc.
Proof.
  induction a as [| e2 a IH]; intros e1 Hc.
  - cbn [map List.last]. rewrite sum_cons. change (Py.sum []) with 0. lia.
  - destruct Hc as [He Hc].
    change (Py.sum (map _ (e1 :: e2 :: a)))
      with (when_eq (ev e1) v rc - when_eq (eu e1) v rc
            + Py.sum
                (map (fun e => when_eq (ev e) v rc - when_eq (eu e) v rc)
                   (e2 :: a))).
    rewrite (IH e2 Hc).
    change (List.last (e1 :: e2 :: a) e1) with (List.last (e2 :: a) e1).
    rewrite (last_default e2 a e1 e2), He. lia.
Qed.

(** X25.  An update that is not cut short pushes a flow: when the edges
    of the path are different edges, each ends where the next starts,
    and none of them is full or would exceed its capacity, the update
    leaves inflow minus outflow as it was at every node other than the
    start of the first edge and the end of the last; between different
    end nodes it takes the amount from the start and adds it at the
    end. *)
Theorem whole_update_conserves_flow (st : locals) (rc : Z)
    (r_edges : list nat) (e1 : Edge) (a : list Edge) (v : string) :
  NoDup r_edges ->
  Forall2 (fun i e => nth_error (cells st) i = Some e) r_edges (e1 :: a) ->
  chained (e1 :: a) ->
  (forall e, In e (e1 :: a) ->
             flow e <> capacity e /\ flow e + rc <= capacity e) ->
  net (cells (update st rc r_edges)) v
  = net (cells st) v
    + when_eq (ev (List.last (e1 :: a) e1)) v rc - when_eq (eu e1) v rc.
Proof.
  intros Hn Hf Hc Hok.
  rewrite (update_net rc v r_edges (e1 :: a) st Hn Hf Hok).
  rewrite (chained_sum rc v a e1 Hc). lia.
Qed.

End WholeUpdate.

(* ================================================================== *)
(** ** Further properties of complete runs *)

Module RunsMore.
Import FordFulkerson SearchFacts FlowFacts SearchMore FlowMore.

(** X16.  When the sink cannot be walked to from the source, a run on an
    object without recorded paths that carries out both phases prints 0,
    raises nothing and leaves every edge as it was, without a single
    assignment. *)
Theorem unreachable_sink_gives_zero (ford f : t) (draws : list nat)
    (st : locals) (e : ending) :
  visited ford = [] ->
  (forall b, walk (edges ford) (source ford) b -> b <> sink ford) ->
  compute draws ford = Completed f st e ->
  e = Printed 0 /\ cells st = edges ford /\ history st = [].
Proof.
  intros Hv Hun. unfold compute, path_finder.
  destruct (_ || _); [discriminate |].
  pose proof (TwoCycle.unreachable_loop draws
                (set_path ford (path ford ++ source ford)%string)
                (source ford) (sink ford) Hun) as H1.
  pose proof (while_loop_edges draws
                (set_path ford (path ford ++ source ford)%string)
                (source ford) (sink ford)) as H2.
  destruct (while_loop draws _ (source ford) (sink ford))
    as [g | | g]; try discriminate.
  cbn [reached set_path visited edges] in H1, H2. rewrite Hv in H1.
  unfold flow_network. rewrite H1, H2. cbn.
  intros [= _ <- <-]. auto.
Qed.

(** X17.  When source and sink are the same node, the search returns
    without taking a draw and without recording a path, and the run
    prints 0 and leaves every edge as it was. *)
Theorem same_source_and_sink_gives_zero (ford : t) (draws : list nat) :
  source ford = sink ford -> source ford <> "" -> visited ford = [] ->
  compute draws ford
  = Completed (set_path ford (path ford ++ source ford)%string)
              (mkLocals (edges ford) [] None []) (Printed 0).
Proof.
  intros Heq Hne Hv. unfold compute, path_finder. rewrite <- Heq.
  destruct (String.eqb_spec (source ford) ""); [contradiction |].
  cbn [orb]. rewrite while_loop_unfold, String.eqb_refl.
  cbn [negb]. rewrite andb_false_r. cbn [andb].
  unfold flow_network. cbn [set_path visited edges]. rewrite Hv.
  reflexivity.
Qed.

(** *** Graphs with one-character labels *)

Lemma one_char_chr (s : string) : one_char s -> exists a, s = Py.chr a.
Proof.
  destruct s as [| a [| b s]]; try discriminate. intros _. now exists a.
Qed.

Lemma chars_cat (l : list string) :
  Forall one_char l -> chars (cat l) = l.
Proof.
  induction 1 as [| s l Hs _ IH]; [reflexivity |].
  destruct (one_char_chr s Hs) as [a ->].
  change (chars (cat (Py.chr a :: l))) with (Py.chr a :: chars (cat l)).
  now rewrite IH.
Qed.

Lemma steps_one_char (es : list Edge) (snk c : string) (l : list string) :
  (forall e, In e es -> one_char (ev e)) ->
  steps es snk c l -> Forall one_char l.
Proof.
  intros He. induction 1 as [c e Hin Heq | c e l Hin Hne _ IH].
  - apply filter_In in Hin. destruct Hin as [Hin _].
    constructor; [| constructor]. rewrite <- Heq. now apply He.
  - apply filter_In in Hin. destruct Hin as [Hin _].
    constructor; [now apply He | exact IH].
Qed.

Lemma step_joined (es : list Edge) (c : string) (e : Edge) :
  (forall x, In x es -> one_char (eu x)) -> one_char c ->
  In e (filter (fun x => Py.str_in c (eu x)) es) ->
  ~ unjoined es (c, ev e).
Proof.
  intros Hu Hc Hin Hun. apply filter_In in Hin. destruct Hin as [Hin Hs].
  destruct (one_char_chr c Hc) as [a ->].
  rewrite (str_in_chr a (eu e) (Hu e Hin)) in Hs.
  specialize (Hun e Hin). unfold both_in in Hun. cbn [fst snd] in Hun.
  rewrite (String.eqb_sym (Py.chr a) (eu e)), Hs in Hun.
  rewrite String.eqb_refl, orb_true_r in Hun. discriminate.
Qed.

Lemma steps_joined (es : list Edge) (snk c : string) (l : list string) :
  (forall x, In x es -> one_char (eu x) /\ one_char (ev x)) ->
  steps es snk c l -> one_char c ->
  forall node, In node (hops_until snk (c :: l)) -> ~ unjoined es node.
Proof.
  intros Hl. induction 1 as [c e Hin Heq | c e l Hin Hne Hst IH];
    intros Hc node; cbn [hops_until].
  - destruct (String.eqb c snk); [intros [] |].
    rewrite String.eqb_refl. intros [<- | []]. rewrite <- Heq.
    apply step_joined; try assumption. intros x Hx. now apply Hl.
  - destruct (String.eqb c snk); [intros [] |].
    intros [<- | Hn].
    + apply step_joined; try assumption. intros x Hx. now apply Hl.
    + apply IH; [| exact Hn].
      apply filter_In in Hin. destruct Hin as [Hin _]. now apply Hl.
Qed.

(** X18.  On a graph whose nodes all have one-character labels, a run
    that starts without recorded paths and with an empty path string and
    carries out both phases does not end with IndexError: every pair of a
    path the search records is joined by the edge the search took. *)
Theorem one_char_labels_no_index_error (ford f : t) (draws : list nat)
    (st : locals) (e : ending) :
  one_char_labels ford -> visited ford = [] -> path ford = "" ->
  compute draws ford = Completed f st e ->
  e <> Raised IndexError.
Proof.
  intros (Hl & Hs & Hk) Hv Hp. unfold compute.
  destruct (path_finder draws ford (source ford) (sink ford))
    as [g | | g] eqn:Epf; try discriminate.
  assert (Hr : reached (path_finder draws ford (source ford) (sink ford))
               = Some g) by now rewrite Epf.
  pose proof (search_keeps_the_graph _ _ _ _ _ Hr) as Hf.
  injection Hf as He _ _ _.
  pose proof (recorded_paths_are_walks draws ford g Hp Hr) as Hw.
  destruct (flow_network g) as [st' e'] eqn:Ef.
  intros [= _ _ <-] ->.
  destruct (proj2 index_error_means_missing_edge g)
    as (p & node & Hin & Hn & Hu).
  { now rewrite Ef. }
  destruct (Hw p Hin) as [Hold | (l & Hst & ->)];
    [rewrite Hv in Hold; destruct Hold |].
  rewrite He in Hu.
  assert (Hone : Forall one_char (source ford :: l)).
  { constructor; [assumption |].
    apply (steps_one_char _ _ _ _ (fun x Hx => proj2 (Hl x Hx)) Hst). }
  unfold hops in Hn. rewrite (chars_cat _ Hone) in Hn.
  destruct (steps_shape _ _ _ _ Hst) as (pre & -> & _).
  change (source ford :: pre ++ [sink ford])
    with ((source ford :: pre) ++ [sink ford]) in Hn.
  rewrite last_last in Hn.
  exact (steps_joined _ _ _ _ Hl Hst Hs node Hn Hu).
Qed.

End RunsMore.

(* ================================================================== *)
(** ** The drawing, the text of an object and the sample data *)

Module Presentation.
Import FordFulkerson Stores.

(** X19.  [__str__] raises IndexError exactly when no path is recorded;
    otherwise it returns the characters of the path recorded last,
    separated by " -> ": every fifth character of the text, from the
    first on, gives that path back.  Right after the search has recorded
    a path, the text shows that path. *)
Theorem str_shows_last_recorded_path (self : t) :
  (FordFulkerson.to_str self = inl IndexError <-> visited self = [])
  /\ (forall v p,
         visited self = v ++ [p] ->
         exists out, FordFulkerson.to_str self = inr out /\ every5 out = p).
Proof.
  split.
  - unfold FordFulkerson.to_str. destruct (visited self); split; congruence.
  - intros v p Hv. unfold FordFulkerson.to_str. rewrite Hv.
    destruct (v ++ [p]) as [| x l] eqn:E;
      [destruct v; discriminate |].
    rewrite <- E, last_last. eexists. split; [reflexivity |].
    clear. induction p as [| a p IH]; [reflexivity |].
    destruct p as [| b p']; [reflexivity |].
    change (chars (String a (String b p')))
      with (Py.chr a :: chars (String b p')).
    change (chars (String b p')) with (Py.chr b :: chars p') in *.
    cbn [String.concat]. cbn [String.concat] in IH.
    change (Py.chr a ++ " -> " ++ ?s)%string
      with (String a (String " " (String "-" (String ">" (String " " s))))).
    cbn [every5]. now rewrite IH.
Qed.

(** X20.  When every edge starts with a flow between 0 and its capacity,
    the drawing made after the update phase labels an edge in red exactly
    when the edge is full, and in green exactly when it can still take
    flow. *)
Theorem red_label_means_full_edge (self : t) (e : Edge) :
  Forall bounded (edges self) ->
  In e (cells (fst (flow_network self))) ->
  (Graph.label_colour e = Graph.red <-> flow e = capacity e)
  /\ (Graph.label_colour e = Graph.green <-> flow e < capacity e).
Proof.
  intros H0 Hin.
  pose proof (flow_network_holds
                (fun es h => Forall bounded es /\ Forall (Forall bounded) h)
                Bounds.bound_kept self (Bounds.bounded_caps _ H0)
                (conj H0 (Forall_nil _))) as [Hc _].
  pose proof (proj1 (Forall_forall _ _) Hc e Hin) as Hb.
  unfold bounded in Hb. unfold Graph.label_colour.
  destruct (Z.ltb_spec (flow e) (capacity e)); split; split;
    intros; try discriminate; try reflexivity; lia.
Qed.

Lemma free_index_from (taken : nat -> bool) (n : nat) :
  taken n = false ->
  forall fuel i,
    (i <= n)%nat -> (n - i < fuel)%nat ->
    exists m,
      Graph.free_index taken fuel i = Some m
      /\ (i <= m <= n)%nat /\ taken m = false
      /\ forall j, (i <= j < m)%nat -> taken j = true.
Proof.
  intros Hn. induction fuel as [| fuel IH]; intros i Hi Hf; [lia |].
  cbn [Graph.free_index]. destruct (taken i) eqn:Ei.
  - assert (i <> n) by congruence.
    destruct (IH (S i)) as (m & Hm & Hr & Ht & Hb); [lia | lia |].
    exists m. repeat split; try assumption; try lia.
    intros j Hj. destruct (Nat.eq_dec j i) as [-> | Hne]; [exact Ei |].
    apply Hb. lia.
  - exists i. repeat split; try assumption; lia.
Qed.

(** X21.  The drawing never overwrites an image: when some file name
    "sample_<n>.png" is unused, the loop that picks the name stops within
    [n + 1] tests at the smallest unused index. *)
Theorem image_index_is_smallest_unused (taken : nat -> bool) (n fuel : nat) :
  taken n = false -> (n < fuel)%nat ->
  exists m,
    Graph.free_index taken fuel 0 = Some m
    /\ taken m = false /\ (m <= n)%nat
    /\ forall j, (j < m)%nat -> taken j = true.
Proof.
  intros Hn Hf.
  destruct (free_index_from taken n Hn fuel 0%nat) as (m & Hm & Hr & Ht & Hb);
    [lia | lia |].
  exists m. repeat split; try assumption; try lia.
  intros j Hj. apply Hb. lia.
Qed.

(** *** The sample data *)













End Presentation.

(* ================================================================== *)
(** ** The further theorems at concrete inputs *)

Module MoreInstances.
Import FordFulkerson SearchFacts FlowFacts Stores SampleFlow.
Import SearchMore FlowMore WholeUpdate RunsMore Presentation.

Lemma sample_edges_one_char (e : Edge) :
  In e (edges sample) -> one_char (eu e) /\ one_char (ev e).
Proof.
  intros He. vm_compute in He.
  repeat (destruct He as [<- | He]; [split; reflexivity |]).
  contradiction.
Defined.

Lemma search_keeps_the_graph_witness :
  exists s,
    reached (path_finder [0; 1; 0]%nat sample "S" "T") = Some s
    /\ frame s = frame sample.
Proof.
  assert (H : exists s,
             reached (path_finder [0; 1; 0]%nat sample "S" "T") = Some s)
    by (vm_compute; eexists; reflexivity).
  destruct H as [s H]. exists s. split; [exact H |].
  exact (search_keeps_the_graph _ _ _ _ _ H).
Defined.

Lemma search_only_appends_witness :
  exists s new,
    reached (path_finder [0; 1; 0; 1]%nat two_paths "S" "T") = Some s
    /\ visited s = visited two_paths ++ new.
Proof.
  assert (H : exists s,
             reached (path_finder [0; 1; 0; 1]%nat two_paths "S" "T")
             = Some s)
    by (vm_compute; eexists; reflexivity).
  destruct H as [s H].
  destruct (search_only_appends _ _ _ _ _ H) as [new Hn].
  exists s, new. split; assumption.
Defined.

Lemma recorded_paths_are_walks_witness :
  exists s,
    reached (path_finder [0; 1; 0]%nat sample (source sample) (sink sample))
    = Some s
    /\ forall p,
         In p (visited s) ->
         In p (visited sample)
         \/ exists l,
              steps (edges sample) (sink sample) (source sample) l
              /\ p = cat (source sample :: l).
Proof.
  assert (H : exists s,
             reached (path_finder [0; 1; 0]%nat sample (source sample)
                                  (sink sample)) = Some s)
    by (vm_compute; eexists; reflexivity).
  destruct H as [s H]. exists s. split; [exact H |].
  exact (recorded_paths_are_walks _ sample s eq_refl H).
Defined.

Lemma possible_is_out_edges_witness :
  possible sample (Py.chr "S")
  = filter (fun e => String.eqb (eu e) (Py.chr "S")) (edges sample).
Proof.
  apply possible_is_out_edges.
  intros e He. exact (proj1 (sample_edges_one_char e He)).
Defined.

Lemma two_paths_consistent : Forall consistent (edges two_paths).
Proof. repeat constructor. Defined.

Lemma residual_stays_capacity_minus_flow_witness :
  Forall consistent (edges two_paths)
  /\ Forall consistent (cells (fst (flow_network two_paths))).
Proof.
  split; [exact two_paths_consistent |].
  exact (residual_stays_capacity_minus_flow two_paths two_paths_consistent).
Defined.

Lemma total_is_sum_of_distinct_amounts_witness :
  exists st total,
    flow_network two_paths = (st, Printed total)
    /\ total = Py.sum (maxflow st) /\ NoDup (maxflow st).
Proof.
  assert (H : exists st total, flow_network two_paths = (st, Printed total))
    by (vm_compute; do 2 eexists; reflexivity).
  destruct H as (st & total & H). exists st, total.
  destruct (total_is_sum_of_distinct_amounts two_paths st total H)
    as (H1 & H2 & _).
  repeat split; assumption.
Defined.

Lemma total_within_total_capacity_witness :
  exists st total,
    flow_network two_paths = (st, Printed total)
    /\ 0 <= total <= total_capacity (edges two_paths).
Proof.
  assert (H : exists st total, flow_network two_paths = (st, Printed total))
    by (vm_compute; do 2 eexists; reflexivity).
  destruct H as (st & total & H). exists st, total. split; [exact H |].
  apply (total_within_total_capacity two_paths st total); [| exact H].
  repeat constructor; simpl; lia.
Defined.

Lemma equal_capacities_raise_unbound_local_witness :
  exists st1,
    body (mkLocals (edges square) [] None []) (hops "SAT") = inr st1
    /\ body st1 (hops "SBT") = inl UnboundLocalError.
Proof.
  assert (H : exists st1,
             body (mkLocals (edges square) [] None []) (hops "SAT")
             = inr st1)
    by (vm_compute; eexists; reflexivity).
  destruct H as (st1 & H). exists st1. split; [exact H |].
  assert (E : forall e, In e (edges square) -> capacity e = 5).
  { intros e He. vm_compute in He.
    repeat (destruct He as [<- | He]; [reflexivity |]). contradiction. }
  assert (J : forall p node,
             In p ["SAT"; "SBT"] -> In node (hops p) ->
             ~ unjoined (edges square) node).
  { intros p node Hp Hn. apply found_not_unjoined. simpl in Hp.
    repeat (destruct Hp as [<- | Hp];
            [vm_compute in Hn;
             repeat (destruct Hn as [<- | Hn];
                     [vm_compute; discriminate |]);
             contradiction |]).
    contradiction. }
  destruct (equal_capacities_raise_unbound_local
              (mkLocals (edges square) [] None []) 5 (hops "SAT") E)
    as [_ K].
  - vm_compute. discriminate.
  - intros node. apply (J "SAT"). simpl. tauto.
  - destruct (K st1 H) as (U1 & M1 & C1).
    destruct (equal_capacities_raise_unbound_local st1 5 (hops "SBT") C1)
      as [R _].
    + vm_compute. discriminate.
    + intros node Hn Hu. apply (J "SBT" node); [simpl; tauto | exact Hn |].
      pose proof (body_inr _ _ _ H) as (_ & _ & _ & Hs).
      exact (unjoined_shapes _ _ node Hs Hu).
    + exact (R M1 U1).
Defined.

Lemma zero_capacity_resets_amount_witness :
  amount row_with_zero ([("S", "A")] ++ ("A", "B") :: [("B", "T")])
  = amount row_with_zero [("B", "T")]
  /\ amount row_with_zero [("B", "T")] = Some 7.
Proof.
  split; [| reflexivity].
  apply (zero_capacity_resets_amount row_with_zero [("S", "A")]
           [("B", "T")] ("A", "B") 1 (mkEdge "A" "B" 0 0 0)).
  - repeat constructor; simpl; lia.
  - vm_compute. discriminate.
  - reflexivity.
  - reflexivity.
Defined.

Lemma update_changes_a_first_part_witness :
  exists k,
    (forall j, ~ In j (firstn k [1; 5; 7; 6]%nat) ->
               nth_error (cells (update after_SACT 3 [1; 5; 7; 6]%nat)) j
               = nth_error (cells after_SACT) j)
    /\ (k = 4%nat
        \/ exists i e,
             nth_error [1; 5; 7; 6]%nat k = Some i
             /\ nth_error (cells after_SACT) i = Some e
             /\ (flow e = capacity e \/ flow e + 3 > capacity e)).
Proof.
  destruct (update_changes_a_first_part 3 [1; 5; 7; 6]%nat after_SACT)
    as (k & _ & Hb & Hk).
  - repeat (constructor; [simpl; intuition discriminate |]). constructor.
  - intros i Hi. simpl in Hi.
    repeat (destruct Hi as [<- | Hi]; [vm_compute; discriminate |]).
    contradiction.
  - exists k. split; assumption.
Defined.

Lemma edges_off_the_paths_are_untouched_witness :
  nth_error (cells (fst (flow_network two_paths))) 8
  = nth_error (edges two_paths) 8.
Proof.
  apply edges_off_the_paths_are_untouched.
  intros p Hp (node & x & Hn & Hx). simpl in Hp.
  repeat (destruct Hp as [<- | Hp];
          [vm_compute in Hn;
           repeat (destruct Hn as [<- | Hn];
                   [vm_compute in Hx; discriminate |]);
           contradiction |]).
  contradiction.
Defined.

Lemma search_returns_at_seven_or_dead_end_witness :
  exists s,
    path_finder [0]%nat dead_end (source dead_end) (sink dead_end)
    = Returned s
    /\ (List.length (visited s) = 7%nat
        \/ exists d, walk (edges dead_end) (source dead_end) d
                     /\ possible dead_end d = []).
Proof.
  assert (H : exists s,
             path_finder [0]%nat dead_end (source dead_end) (sink dead_end)
             = Returned s)
    by (vm_compute; eexists; reflexivity).
  destruct H as [s H]. exists s. split; [exact H |].
  apply (search_returns_at_seven_or_dead_end [0]%nat dead_end s);
    [reflexivity | discriminate | exact H].
Defined.

Lemma dead_end_walk (a b : string) :
  walk (edges dead_end) a b -> a = "S" \/ a = "A" -> b = "S" \/ b = "A".
Proof.
  induction 1 as [a | a b e Hin _ IH]; intros Ha; [exact Ha |].
  apply IH. destruct Ha as [-> | ->]; vm_compute in Hin.
  - destruct Hin as [<- | []]. now right.
  - destruct Hin.
Defined.

Lemma unreachable_sink_gives_zero_witness :
  exists f st e,
    compute [0]%nat dead_end = Completed f st e
    /\ e = Printed 0 /\ cells st = edges dead_end /\ history st = [].
Proof.
  assert (H : exists f st e, compute [0]%nat dead_end = Completed f st e)
    by (vm_compute; do 3 eexists; reflexivity).
  destruct H as (f & st & e & H). exists f, st, e. split; [exact H |].
  apply (unreachable_sink_gives_zero dead_end f [0]%nat st e);
    [reflexivity | | exact H].
  intros b Hw. apply dead_end_walk in Hw; [| now left].
  destruct Hw as [-> | ->]; discriminate.
Defined.

Lemma same_source_and_sink_gives_zero_witness :
  compute [0; 1]%nat sample_round
  = Completed (set_path sample_round "S")
              (mkLocals (edges sample_round) [] None []) (Printed 0).
Proof.
  apply (same_source_and_sink_gives_zero sample_round [0; 1]%nat);
    [reflexivity | discriminate | reflexivity].
Defined.

Lemma one_char_labels_no_index_error_witness :
  exists f st e,
    compute draws_other_order sample = Completed f st e
    /\ e <> Raised IndexError.
Proof.
  assert (H : exists f st e,
             compute draws_other_order sample = Completed f st e)
    by (vm_compute; do 3 eexists; reflexivity).
  destruct H as (f & st & e & H). exists f, st, e. split; [exact H |].
  apply (one_char_labels_no_index_error sample f draws_other_order st e);
    [| reflexivity | reflexivity | exact H].
  split; [exact sample_edges_one_char | split; reflexivity].
Defined.

Lemma red_label_means_full_edge_witness :
  In (mkEdge "A" "C" 8 8 0) (cells (fst (flow_network two_paths)))
  /\ (Graph.label_colour (mkEdge "A" "C" 8 8 0) = Graph.red
      <-> flow (mkEdge "A" "C" 8 8 0) = capacity (mkEdge "A" "C" 8 8 0)).
Proof.
  assert (Hin : In (mkEdge "A" "C" 8 8 0)
                   (cells (fst (flow_network two_paths))))
    by (vm_compute; tauto).
  split; [exact Hin |].
  exact (proj1 (red_label_means_full_edge two_paths _
                  Instances.sample_bounded Hin)).
Defined.

Lemma image_index_is_smallest_unused_witness :
  exists m,
    Graph.free_index (fun i => Nat.ltb i 3) 4 0 = Some m
    /\ Nat.ltb m 3 = false /\ (m <= 3)%nat
    /\ forall j, (j < m)%nat -> Nat.ltb j 3 = true.
Proof.
  apply (image_index_is_smallest_unused (fun i => Nat.ltb i 3) 3 4);
    [reflexivity | lia].
Defined.


Lemma exit_only_for_missing_end_point_witness :
  path_finder [0%nat] sample "" "T" = Exited
  /\ path_finder [0%nat] sample "S" "T" <> Exited.
Proof.
  destruct (exit_only_for_missing_end_point [0%nat] sample "" "T")
    as [H _].
  destruct (exit_only_for_missing_end_point [0%nat] sample "S" "T")
    as [_ H'].
  split; [apply H; now left | apply H'; discriminate].
Defined.

Lemma hops_cover_path_up_to_last_character_witness :
  exists pre post,
    chars "SACT" = pre ++ List.last (chars "SACT") "" :: post
    /\ ~ In (List.last (chars "SACT") "") pre
    /\ map fst (hops "SACT") = pre
    /\ map snd (hops "SACT") = tl (pre ++ [List.last (chars "SACT") ""]).
Proof.
  destruct (hops_cover_path_up_to_last_character "SACT") as [_ H].
  apply H. discriminate.
Defined.

Lemma visit_has_one_entry_per_path_witness :
  NoDup (map fst (build_visit ["SACT"; "SBT"; "SACT"]))
  /\ In "SBT" (map fst (build_visit ["SACT"; "SBT"; "SACT"])).
Proof.
  destruct (visit_has_one_entry_per_path ["SACT"; "SBT"; "SACT"])
    as (H & K & _).
  split; [exact H | apply (proj2 (K "SBT")); simpl; tauto].
Defined.

Lemma index_error_means_missing_edge_witness :
  exists p node,
    In p (visited (set_visited sample ["ST"]))
    /\ In node (hops p)
    /\ unjoined (edges (set_visited sample ["ST"])) node.
Proof.
  destruct index_error_means_missing_edge as [_ H].
  apply H. reflexivity.
Defined.

Lemma str_shows_last_recorded_path_witness :
  exists out, to_str two_paths = inr out /\ every5 out = "SBDCT".
Proof.
  destruct (str_shows_last_recorded_path two_paths) as [_ H].
  apply (H ["SACT"]). reflexivity.
Defined.

Lemma whole_update_conserves_flow_witness :
  net (cells (update fresh 8 [0; 3; 6]%nat)) "C" = net (cells fresh) "C"
  /\ net (cells (update fresh 8 [0; 3; 6]%nat)) "T"
     = net (cells fresh) "T" + 8.
Proof.
  assert (H : forall v,
             net (cells (update fresh 8 [0; 3; 6]%nat)) v
             = net (cells fresh) v
               + when_eq "T" v 8 - when_eq "S" v 8).
  { intros v.
    apply (whole_update_conserves_flow fresh 8 [0; 3; 6]%nat
             (mkEdge "S" "A" 9 0 9)
             [mkEdge "A" "C" 8 0 8; mkEdge "C" "T" 10 0 10] v).
    - repeat constructor; simpl; intuition discriminate.
    - repeat constructor.
    - simpl. tauto.
    - intros e He. simpl in He.
      repeat (destruct He as [<- | He]; [simpl; lia |]). contradiction. }
  split; [rewrite (H "C") | rewrite (H "T")]; vm_compute; reflexivity.
Defined.

Lemma lookup_ignores_direction_witness :
  Forall2 (fun node e => eu e = fst node /\ ev e = snd node)
    (hops "SACT")
    [mkEdge "S" "A" 9 0 9; mkEdge "A" "C" 8 0 8; mkEdge "C" "T" 10 0 10].
Proof.
  destruct (lookup_ignores_direction (edges sample) (hops "SACT")
              [mkEdge "S" "A" 9 0 9; mkEdge "A" "C" 8 0 8;
               mkEdge "C" "T" 10 0 10]) as (_ & _ & H).
  apply H.
  - intros node Hn. vm_compute in Hn.
    repeat (destruct Hn as [<- | Hn]; [discriminate |]). contradiction.
  - intros node e Hn He [H1 H2]. vm_compute in Hn, He.
    repeat (destruct Hn as [<- | Hn];
            [repeat (destruct He as [<- | He]; [discriminate |]);
             contradiction |]).
    contradiction.
  - reflexivity.
Defined.

End MoreInstances.
